(** * radial/orbit.py: radial velocities of a Keplerian orbit

    A shallow embedding of [orbit.py] (functions [vr], [kepler], [get_RVs],
    [log_RVs]) and the properties of it that its specification states.

    Numbers.  The program computes with IEEE binary64 numbers.  They are
    modelled by the real numbers [R]: every finite float is a real, and
    rounding, overflow and underflow are left out.  The one non-finite
    value the program can produce out of finite parameters without
    rounding, the [nan] that [np.sqrt] returns on a negative argument, is
    kept: a computed velocity is an [npfloat], [None] standing for [nan].

    Errors.  A Python call either returns or raises; this is the [result]
    type below, threaded through [get_RVs] in the order of its statements.

    Library calls.  [np.linspace], [np.sqrt], [np.arctan2], [np.interp] and
    [scipy.optimize.newton] are not code of the repository; each is modelled
    in the module [Lib] after what the library does on the arguments
    [get_RVs] passes: [np.interp] with [period] (numpy 1.10 and later), and
    the secant branch of [newton] with its default settings (scipy 1.2 and
    later: the two starting points ordered by residual, the step compared
    with [np.isclose], a [RuntimeError] when it does not converge).

    Signed zeros do not exist in [R]: [Lib.arctan2] reads a zero argument
    as [+0.0]. *)

From Stdlib Require Import Reals Lra Lia List ZArith Bool Sorted.
Import ListNotations.

Local Open Scope R_scope.

(** ** Exceptions and results *)

(** The exceptions the modelled calls raise. *)
Inductive exn : Type :=
| ValueError          (* numpy: negative [num], zero [period], no sample point *)
| ZeroDivisionError   (* Python: float division by zero *)
| RuntimeError.       (* scipy: the root solve did not converge *)

Inductive result (A : Type) : Type :=
| Ok (a : A)
| Raise (x : exn).

Arguments Ok {A} a.
Arguments Raise {A} x.

Definition bind {A B : Type} (r : result A) (k : A -> result B) : result B :=
  match r with
  | Ok a => k a
  | Raise x => Raise x
  end.

Notation "x <- r ;; k" := (bind r (fun x => k))
  (at level 61, r at next level, right associativity).

(** A list comprehension whose body may raise: the first raise ends it. *)
Fixpoint mapM {A B : Type} (g : A -> result B) (l : list A) : result (list B) :=
  match l with
  | [] => Ok []
  | a :: l' => b <- g a ;; bs <- mapM g l' ;; Ok (b :: bs)
  end.

(** A float that may be [nan]. *)
Definition npfloat : Type := option R.

Definition lift1 (g : R -> R) (v : npfloat) : npfloat := option_map g v.

(** ** The library functions the program calls *)

Module Lib.

(** Python's [/] on two builtin floats: a zero divisor raises.  (A numpy
    float divides by zero without an exception, to an infinity or [nan];
    [get_RVs] called with such a zero [T] raises further down, in a root
    solve or in [np.interp].  The statements below name no exception for
    [T = 0].) *)
Definition py_div (x y : R) : result R :=
  if Req_dec_T y 0 then Raise ZeroDivisionError else Ok (x / y).

(** [np.linspace(start, stop, num)], [endpoint=True]: [num] samples
    [start + i * step] with [step = (stop - start) / (num - 1)], the last
    one set to [stop]; a single sample is [start]; a negative [num] is a
    [ValueError]. *)
Definition linspace (start stop : R) (num : Z) : result (list R) :=
  if (num <? 0)%Z then Raise ValueError
  else
    match Z.to_nat num with
    | O => Ok []
    | S O => Ok [start]
    | S n as len =>
        let step := (stop - start) / INR n in
        Ok (map (fun i => if Nat.eqb i n then stop else start + INR i * step)
                (seq 0 len))
    end.

(** [np.sqrt]: [nan] on a negative argument (a warning, no exception). *)
Definition np_sqrt (x : R) : npfloat :=
  if Rlt_dec x 0 then None else Some (sqrt x).

(** [np.arctan2(y, x)]: the angle of the point [(x, y)] in (-pi, pi]. *)
Definition arctan2 (y x : R) : R :=
  if Rlt_dec 0 x then atan (y / x)
  else if Rlt_dec x 0 then
    if Rle_dec 0 y then atan (y / x) + PI else atan (y / x) - PI
  else if Rlt_dec 0 y then PI / 2
  else if Rlt_dec y 0 then - (PI / 2)
  else 0.

(** [x % p] of numpy for a positive [p]: the remainder of the floored
    division, in [0, p). *)
Definition np_mod (x p : R) : R := x - IZR (Zfloor (x / p)) * p.

(** *** [np.interp(x, xp, fp, period=...)] *)

(** [np.argsort] followed by indexing [xp] and [fp] with it, on the list of
    sample points: insertion into a list sorted by abscissa.  (numpy's
    default sort is not stable; this one is.) *)
Fixpoint insert_pt (p : R * npfloat) (l : list (R * npfloat))
  : list (R * npfloat) :=
  match l with
  | [] => [p]
  | q :: l' => if Rle_dec (fst p) (fst q) then p :: q :: l'
               else q :: insert_pt p l'
  end.

Fixpoint sort_pts (l : list (R * npfloat)) : list (R * npfloat) :=
  match l with
  | [] => []
  | p :: l' => insert_pt p (sort_pts l')
  end.

(** [slope * (x - xp[j]) + fp[j]] with
    [slope = (fp[j+1] - fp[j]) / (xp[j+1] - xp[j])]; [nan] as soon as one of
    the two ordinates is. *)
Definition lin (p q : R * npfloat) (x : R) : npfloat :=
  match snd p, snd q with
  | Some y0, Some y1 => Some ((y1 - y0) / (fst q - fst p) * (x - fst p) + y0)
  | _, _ => None
  end.

(** The search of the compiled interpolation, from a sample point [p] with
    [fst p <= x]: it stops at the last sample point not above [x]; there
    the value is the ordinate when [x] is that abscissa or the point is the
    last one, and the linear interpolation towards the next point
    otherwise. *)
Fixpoint interp_from (x : R) (p : R * npfloat) (rest : list (R * npfloat))
  : npfloat :=
  match rest with
  | [] => snd p
  | q :: rest' =>
      if Rle_dec (fst q) x then interp_from x q rest'
      else if Req_dec_T (fst p) x then snd p
      else lin p q x
  end.

(** One query of the compiled interpolation over sorted sample points; a
    query below the first abscissa gets the first ordinate. *)
Definition interp1 (pts : list (R * npfloat)) (x : R) : npfloat :=
  match pts with
  | [] => None
  | p :: rest => if Rlt_dec x (fst p) then snd p else interp_from x p rest
  end.

(** The sample points of the periodic case: abscissae reduced modulo the
    period and sorted, then the last point repeated one period below and
    the first one one period above. *)
Definition wrap_pts (pts : list (R * npfloat)) (period : R)
  : list (R * npfloat) :=
  match pts with
  | [] => []
  | first :: _ =>
      let final := last pts first in
      (fst final - period, snd final) :: pts
        ++ [(fst first + period, snd first)]
  end.

(** [interp(x, xp, fp, period=period)]: a zero period, sample lists of
    different lengths and an empty sample list are [ValueError]s. *)
Definition interp (x xp : list R) (fp : list npfloat) (period : R)
  : result (list npfloat) :=
  if Req_dec_T period 0 then Raise ValueError
  else
    let period := Rabs period in
    if negb (Nat.eqb (length xp) (length fp)) then Raise ValueError
    else
      let x := map (fun v => np_mod v period) x in
      let xp := map (fun v => np_mod v period) xp in
      let pts := wrap_pts (sort_pts (combine xp fp)) period in
      match pts with
      | [] => Raise ValueError
      | _ :: _ => Ok (map (interp1 pts) x)
      end.

(** *** [scipy.optimize.newton(func, x0, args=...)] *)

(** Without [fprime] the solver is the secant method, with the defaults
    [tol = 1.48e-8], [maxiter = 50], [rtol = 0], [disp = True]; [eps] is
    the relative and absolute offset of the second starting point. *)
Definition tol : R := 148 / 10000000000.
Definition maxiter : nat := 50.
Definition eps : R := 1 / 10000.

(** The second starting point. *)
Definition newton_x1 (x0 : R) : R :=
  let p1 := x0 * (1 + eps) in
  if Rle_dec 0 p1 then p1 + eps else p1 - eps.

(** The secant step from [(p0, q0)] and [(p1, q1)], [q0 <> q1]. *)
Definition secant_step (p0 q0 p1 q1 : R) : R :=
  if Rlt_dec (Rabs q0) (Rabs q1)
  then (- q0 / q1 * p1 + p0) / (1 - q0 / q1)
  else (- q1 / q0 * p0 + p1) / (1 - q1 / q0).

(** The loop [for itr in range(maxiter)], [n] iterations left: equal
    residuals end it ([RuntimeError] under [disp] unless the two points are
    one); a step that [np.isclose(p, p1, rtol=0, atol=tol)] accepts, that
    is [|p - p1| <= tol], returns [p]; running out of iterations is a
    [RuntimeError]. *)
Fixpoint secant_loop (func : R -> R) (n : nat) (p0 q0 p1 q1 : R) : result R :=
  match n with
  | O => Raise RuntimeError
  | S n' =>
      if Req_dec_T q1 q0 then
        if Req_dec_T p1 p0 then Ok ((p1 + p0) / 2) else Raise RuntimeError
      else
        let p := secant_step p0 q0 p1 q1 in
        if Rle_dec (Rabs (p - p1)) tol then Ok p
        else secant_loop func n' p1 q1 p (func p)
  end.

(** [newton(func, x0)]: [if abs(q1) < abs(q0)] the two starting points
    are swapped before the loop. *)
Definition newton (func : R -> R) (x0 : R) : result R :=
  let p0 := x0 in
  let p1 := newton_x1 x0 in
  let q0 := func p0 in
  let q1 := func p1 in
  if Rlt_dec (Rabs q1) (Rabs q0)
  then secant_loop func maxiter p1 q1 p0 q0
  else secant_loop func maxiter p0 q0 p1 q1.

End Lib.

(** ** The program *)

(** [vr(vz, K, w, f, e)], Eq. 65: [w] is in degrees. *)
Definition vr (vz K w f e : R) : R :=
  let w := w * (PI / 180) in
  vz + K * (cos (w + f) + e * cos w).

(** [kepler(E, e, M)], Eq. 41. *)
Definition kepler (E e M : R) : R := E - e * sin E - M.

(** The true anomaly of [get_RVs]:
    [2*np.arctan2(np.sqrt(1.+e)*np.sin(E/2), np.sqrt(1.-e)*np.cos(E/2))].
    Over the reals the sine and the cosine vanish at multiples of pi/2,
    which no binary64 argument is: where the point handed to [arctan2] is
    the origin ([e = 1] at [E = 0, 2 pi, ...]) or sits on the negative
    abscissa ([E/2 = pi]) the code can return an angle half a turn or a
    full turn away from the one computed here. *)
Definition true_anomaly (e E : R) : npfloat :=
  match Lib.np_sqrt (1 + e), Lib.np_sqrt (1 - e) with
  | Some sp, Some sm => Some (2 * Lib.arctan2 (sp * sin (E / 2)) (sm * cos (E / 2)))
  | _, _ => None
  end.

(** The root solve of one grid point: [sp.newton(func = kepler, x0 = Mk,
    args = (e, Mk))]. *)
Definition solve_kepler (e Mk : R) : result R :=
  Lib.newton (fun E => kepler E e Mk) Mk.

(** [get_RVs(K, T, t0, w, e, a, VZ, NT, ts)], statement by statement:
    the grid [t], the mean anomalies [M] (the quotient [2*np.pi/T] is a
    Python float division), the eccentric anomalies [E], the true
    anomalies [f], the grid velocities [RV], the interpolation. *)
Definition get_RVs (K T t0 w e a VZ : R) (NT : Z) (ts : list R)
  : result (list npfloat) :=
  t <- Lib.linspace t0 (t0 + T) NT ;;
  c <- Lib.py_div (2 * PI) T ;;
  let M := map (fun tk => c * (tk - t0)) t in
  E <- mapM (fun Mk => solve_kepler e Mk) M ;;
  let f := map (true_anomaly e) E in
  let RV := map (lift1 (fun fk => vr VZ K w fk e)) f in
  Lib.interp ts t RV T.

(** [log_RVs(lnK, lnT, t0, w, lne, lna, VZ, NT, ts)]: [np.exp] of the
    four log-scale parameters, then [get_RVs].  [np.exp] is the real
    exponential here: its underflow to [0.0] (arguments below about -745)
    and its overflow are left out, as everywhere. *)
Definition log_RVs (lnK lnT t0 w lne lna VZ : R) (NT : Z) (ts : list R)
  : result (list npfloat) :=
  let K := exp lnK in
  let T := exp lnT in
  let e := exp lne in
  let a := exp lna in
  get_RVs K T t0 w e a VZ NT ts.

(** ** Notions used in the statements *)

(** The mean anomalies of the grid of [get_RVs]: [2*pi/T*(t - t0)] for [t]
    in [np.linspace(t0, t0+T, NT)]. *)
Definition mean_anomalies (T t0 : R) (NT : Z) : list R :=
  match Lib.linspace t0 (t0 + T) NT with
  | Ok t => map (fun tk => 2 * PI / T * (tk - t0)) t
  | Raise _ => []
  end.

(** The offset of the solver's second starting point at the mean anomaly
    2 pi. *)
Definition delta : R := 2 * PI * Lib.eps + Lib.eps.

(** Sample points that all carry the ordinate [y]. *)
Definition flat (y : npfloat) (pts : list (R * npfloat)) : Prop :=
  Forall (fun p => snd p = y) pts.

(** The velocity of a grid point with eccentric anomaly [E]: lines 51-53
    of [get_RVs] at one point. *)
Definition grid_velocity (K w e VZ E : R) : npfloat :=
  lift1 (fun fk => vr VZ K w fk e) (true_anomaly e E).

(** ** The orbital parameter K *)

(** What a numpy float division can give: a real, an infinity or [nan]. *)
Inductive npval : Type :=
| Fin (r : R)
| Inf (negative : bool)
| NaN.

(** [x / d] on numpy floats: a zero divisor gives an infinity of the sign
    of [x], or [nan] for [0 / 0] (a warning, no exception). *)
Definition np_truediv (x d : R) : npval :=
  if Req_dec_T d 0 then
    if Rlt_dec 0 x then Inf false
    else if Rlt_dec x 0 then Inf true
    else NaN
  else Fin (x / d).

(** [K(m1, m2, n, a, I, e)], Eq. 66:
    [m2/(m1+m2)*n*a*np.sin(I)/np.sqrt(1.-e**2)].  The first quotient is a
    Python float division; the last one divides numpy floats.  The
    [OverflowError] of [e**2] on a huge builtin float is overflow, left
    out as everywhere. *)
Definition K (m1 m2 n a I e : R) : result npval :=
  q <- Lib.py_div m2 (m1 + m2) ;;
  let num := q * n * a * sin I in
  match Lib.np_sqrt (1 - e ^ 2) with
  | Some d => Ok (np_truediv num d)
  | None => Ok NaN
  end.

(** ** Further notions used in the statements *)

(** The affine change of velocity scale [u |-> c + k * u], on floats that
    may be [nan]. *)
Definition rescale (c k : R) (v : npfloat) : npfloat :=
  lift1 (fun u => c + k * u) v.

(** A velocity that is a number within [bound] of [centre]. *)
Definition within (centre bound : R) (v : npfloat) : Prop :=
  exists r, v = Some r /\ Rabs (r - centre) <= bound.

(** ** The two formulas *)

Section Formulas.

Variables VZ K w f e : R.

(** C7: [vr] returns [VZ + K * (cos (w_rad + f) + e * cos w_rad)] with
    [w_rad = w * pi / 180]; it is a total function of its five real
    arguments, so no finite input makes it fail. *)
Theorem vr_formula :
  vr VZ K w f e = VZ + K * (cos (w * PI / 180 + f) + e * cos (w * PI / 180)).
Proof.
  unfold vr; cbv zeta.
  replace (w * (PI / 180)) with (w * PI / 180) by field.
  reflexivity.
Qed.

(** C8: the residual of the Kepler equation is [E - e * sin E - M]; the
    function reads nothing but its arguments and has no other result. *)
Theorem kepler_residual (E M : R) : kepler E e M = E - e * sin E - M.
Proof. reflexivity. Qed.

End Formulas.

(** The residual is linear in [M]: it vanishes exactly where
    [E - e * sin E] is [M]. *)
Lemma kepler_root (E e M : R) : kepler E e M = 0 <-> E - e * sin E = M.
Proof. unfold kepler; split; intro H; lra. Qed.

(** ** The reparameterization adapter *)

(** C9: the semi-major axis [a] is carried but never read: two runs of
    [get_RVs] that differ in [a] only give the same result. *)
Theorem get_RVs_ignores_a (K T t0 w e a1 a2 VZ : R) (NT : Z) (ts : list R) :
  get_RVs K T t0 w e a1 VZ NT ts = get_RVs K T t0 w e a2 VZ NT ts.
Proof. reflexivity. Qed.

(** C2: [log_RVs] is [get_RVs] at the exponentials of its four log-scale
    parameters, the other arguments unchanged; so it is at the instance
    lnK = ln 5, lnT = ln 100, t0 = 0, w = 90, lne = ln 0.3, lna = ln 1,
    VZ = 0, NT = 1000, ts = [0, 25, 50, 75, 100], where the exponentials
    are 5, 100, 0.3 and 1. *)
Theorem log_RVs_is_get_RVs_exp :
  (forall (lnK lnT t0 w lne lna VZ : R) (NT : Z) (ts : list R),
      log_RVs lnK lnT t0 w lne lna VZ NT ts
      = get_RVs (exp lnK) (exp lnT) t0 w (exp lne) (exp lna) VZ NT ts)
  /\ log_RVs (ln 5) (ln 100) 0 90 (ln (3 / 10)) (ln 1) 0 1000
             [0; 25; 50; 75; 100]
     = get_RVs 5 100 0 90 (3 / 10) 1 0 1000 [0; 25; 50; 75; 100].
Proof.
  split.
  - intros; reflexivity.
  - unfold log_RVs; cbv zeta.
    rewrite !exp_ln by lra.
    reflexivity.
Qed.

(** ** Periodic interpolation *)

Section Periodicity.

(** The remainder does not see a shift of the query by one period, of
    either sign. *)
Lemma np_mod_shift (x T : R) :
  T <> 0 -> Lib.np_mod (x + T) (Rabs T) = Lib.np_mod x (Rabs T).
Proof.
  intros HT. unfold Lib.np_mod.
  destruct (Rcase_abs T) as [Hneg | Hpos].
  - rewrite (Rabs_left T Hneg).
    replace ((x + T) / - T) with (x / - T + IZR (-1)) by (field; lra).
    rewrite Zfloor_addz, plus_IZR. lra.
  - assert (0 < T) by lra.
    rewrite (Rabs_right T Hpos).
    replace ((x + T) / T) with (x / T + IZR 1) by (field; lra).
    rewrite Zfloor_addz, plus_IZR. lra.
Qed.

(** [np.interp] with [period = T] answers the queries [x + T] as it
    answers the queries [x]. *)
Lemma interp_shift (x xp : list R) (fp : list npfloat) (T : R) :
  Lib.interp (map (fun v => v + T) x) xp fp T = Lib.interp x xp fp T.
Proof.
  unfold Lib.interp.
  destruct (Req_dec_T T 0) as [HT | HT]; [reflexivity |].
  destruct (negb (length xp =? length fp)%nat); [reflexivity |].
  cbv zeta.
  destruct (Lib.wrap_pts _ _) as [| p pts]; [reflexivity |].
  rewrite !map_map. f_equal.
  apply map_ext; intros v. rewrite (np_mod_shift v T HT). reflexivity.
Qed.

(** [get_RVs] inherits it: the grid, the root solves and the grid
    velocities do not depend on [ts]. *)
Lemma get_RVs_shift (K T t0 w e a VZ : R) (NT : Z) (ts : list R) :
  get_RVs K T t0 w e a VZ NT (map (fun v => v + T) ts)
  = get_RVs K T t0 w e a VZ NT ts.
Proof.
  unfold get_RVs.
  destruct (Lib.linspace t0 (t0 + T) NT) as [t | x]; [| reflexivity].
  cbn [bind].
  destruct (Lib.py_div (2 * PI) T) as [c | x]; [| reflexivity].
  cbn [bind].
  destruct (mapM _ _) as [E | x]; [| reflexivity].
  cbn [bind]. apply interp_shift.
Qed.

End Periodicity.

(** C5: for a valid element set ([T > 0], [0 <= e < 1], [NT >= 2]) and any
    time [t], [get_RVs] at [ts = [t]] and at [ts = [t + T]] give the same
    result: [np.interp] reduces the query modulo the period before it
    interpolates the one-period grid.  (Over the reals the two results are
    equal, which is within every error bound.) *)
Theorem get_RVs_periodic (K T t0 w e a VZ : R) (NT : Z) (t : R) :
  0 < T -> 0 <= e < 1 -> (2 <= NT)%Z ->
  get_RVs K T t0 w e a VZ NT [t + T] = get_RVs K T t0 w e a VZ NT [t].
Proof.
  intros _ _ _.
  exact (get_RVs_shift K T t0 w e a VZ NT [t]).
Qed.

Lemma get_RVs_periodic_at_quarter :
  get_RVs 5 100 0 90 (3 / 10) 1 0 1000 [25 + 100]
  = get_RVs 5 100 0 90 (3 / 10) 1 0 1000 [25].
Proof.
  apply (get_RVs_periodic 5 100 0 90 (3 / 10) 1 0 1000 25); [lra | lra | lia].
Defined.

(** ** The root solve started on a root *)

Section ExactStart.

Import Lib.

(** The second starting point is at least [eps] away from the first. *)
Lemma newton_x1_away (x0 : R) : eps <= Rabs (x0 - newton_x1 x0).
Proof.
  unfold newton_x1, eps; cbv zeta.
  destruct (Rle_dec 0 (x0 * (1 + 1 / 10000))) as [H | H].
  - rewrite Rabs_left; lra.
  - rewrite Rabs_right; lra.
Qed.

Lemma tol_lt_eps : tol < eps.
Proof. unfold tol, eps; lra. Qed.

(** The secant step through a point where the function vanishes is that
    point, whichever of the two points it is. *)
Lemma secant_step_root_left (p0 p1 q1 : R) :
  q1 <> 0 -> secant_step p0 0 p1 q1 = p0.
Proof.
  intros Hq. unfold secant_step.
  pose proof (Rabs_pos_lt q1 Hq) as Hpos. rewrite Rabs_R0.
  destruct (Rlt_dec 0 (Rabs q1)) as [_ | Hn]; [field; exact Hq | lra].
Qed.

Lemma secant_step_root_right (p0 q0 p1 : R) :
  q0 <> 0 -> secant_step p0 q0 p1 0 = p1.
Proof.
  intros Hq. unfold secant_step.
  pose proof (Rabs_pos q0) as Hpos. rewrite Rabs_R0.
  destruct (Rlt_dec (Rabs q0) 0) as [Hn | _]; [lra | field; exact Hq].
Qed.

(** One unfolding of the loop. *)
Lemma secant_loop_S (func : R -> R) (n : nat) (p0 q0 p1 q1 : R) :
  secant_loop func (S n) p0 q0 p1 q1
  = if Req_dec_T q1 q0 then
      if Req_dec_T p1 p0 then Ok ((p1 + p0) / 2) else Raise RuntimeError
    else
      if Rle_dec (Rabs (secant_step p0 q0 p1 q1 - p1)) tol
      then Ok (secant_step p0 q0 p1 q1)
      else secant_loop func n p1 q1 (secant_step p0 q0 p1 q1)
                       (func (secant_step p0 q0 p1 q1)).
Proof. reflexivity. Qed.

(** From a root [p0] and a point [p1] at least [eps] away where the
    function does not vanish, two iterations return [p0]. *)
Lemma secant_loop_root_left (func : R -> R) (n : nat) (p0 p1 : R) :
  func p0 = 0 -> func p1 <> 0 -> eps <= Rabs (p0 - p1) ->
  secant_loop func (S (S n)) p0 0 p1 (func p1) = Ok p0.
Proof.
  intros H0 H1 Haway. pose proof tol_lt_eps as Hte.
  rewrite secant_loop_S.
  destruct (Req_dec_T (func p1) 0) as [Hq | _]; [contradiction |].
  rewrite (secant_step_root_left _ _ _ H1).
  destruct (Rle_dec (Rabs (p0 - p1)) tol) as [Hc | _]; [lra |].
  rewrite H0, secant_loop_S.
  destruct (Req_dec_T 0 (func p1)) as [Hq | _];
    [symmetry in Hq; contradiction |].
  rewrite (secant_step_root_right _ _ _ H1).
  replace (p0 - p0) with 0 by ring. rewrite Rabs_R0.
  destruct (Rle_dec 0 tol) as [_ | Hc]; [reflexivity |].
  unfold tol in Hc; lra.
Qed.

(** When the starting point is a root already and the function does not
    vanish at the second starting point, the solver comes back to the
    starting point in two iterations and returns it. *)
Lemma newton_exact_start (func : R -> R) (x0 : R) :
  func x0 = 0 -> func (newton_x1 x0) <> 0 -> newton func x0 = Ok x0.
Proof.
  intros H0 H1. unfold newton; cbv zeta. rewrite H0, Rabs_R0.
  pose proof (Rabs_pos (func (newton_x1 x0))) as Hpos.
  destruct (Rlt_dec (Rabs (func (newton_x1 x0))) 0) as [Hn | _]; [lra |].
  change maxiter with (S (S 48)).
  apply secant_loop_root_left; auto using newton_x1_away.
Qed.

End ExactStart.

(** ** The residual at the returned root *)

Section SecantResidual.

Import Lib.

(** A function with a derivative that stays in [[lo, hi]]. *)

Variables (func func' : R -> R) (lo hi : R).
Hypothesis func_derivative : forall x, derivable_pt_lim func x (func' x).
Hypothesis func'_range : forall x, lo <= func' x <= hi.

(** The mean value theorem between two distinct points, in either order. *)
Lemma mean_value (x y : R) :
  x <> y -> exists c, func y - func x = func' c * (y - x).
Proof.
  intros Hxy. destruct (Rtotal_order x y) as [Hlt | [Heq | Hgt]].
  - destruct (MVT_cor2 func func' x y Hlt) as (c & Hc & _);
      [intros; apply func_derivative | exists c; exact Hc].
  - contradiction.
  - destruct (MVT_cor2 func func' y x Hgt) as (c & Hc & _);
      [intros; apply func_derivative | exists c; lra].
Qed.

(** Both formulas of the step are the zero of the chord. *)
Lemma secant_step_chord (p0 q0 p1 q1 : R) :
  q1 <> q0 -> secant_step p0 q0 p1 q1 = (q1 * p0 - q0 * p1) / (q1 - q0).
Proof.
  intros Hq. unfold secant_step.
  destruct (Rlt_dec (Rabs q0) (Rabs q1)) as [Hlt | Hge].
  - assert (q1 <> 0).
    { intros ->. rewrite Rabs_R0 in Hlt. pose proof (Rabs_pos q0). lra. }
    field. repeat split; lra.
  - assert (q0 <> 0).
    { intros ->. rewrite Rabs_R0 in Hge.
      pose proof (Rabs_pos_lt q1 Hq). lra. }
    field. repeat split; lra.
Qed.

(** The residual after a step is at most the spread of the derivative
    times the length of the step. *)
Lemma secant_step_residual (p0 p1 : R) :
  p0 <> p1 -> func p1 <> func p0 ->
  Rabs (func (secant_step p0 (func p0) p1 (func p1)))
  <= (hi - lo) * Rabs (secant_step p0 (func p0) p1 (func p1) - p1).
Proof.
  intros Hp Hq. rewrite (secant_step_chord _ _ _ _ Hq).
  set (p := (func p1 * p0 - func p0 * p1) / (func p1 - func p0)).
  destruct (mean_value p0 p1 Hp) as [xi Hxi].
  assert (Hs : func' xi <> 0).
  { intros Hz. rewrite Hz in Hxi. lra. }
  assert (Hq1 : func p1 = - func' xi * (p - p1)).
  { unfold p. rewrite <- (Rplus_0_r (func p1)) at 1.
    assert (func p0 = func p1 - func' xi * (p1 - p0)) as -> by lra.
    assert (Hd : func' xi * (p1 - p0) <> 0) by (intros Hz; apply Hq; lra).
    field_simplify_eq; [ring | ].
    replace (func p1 - (func p1 - func' xi * (p1 - p0)))
      with (func' xi * (p1 - p0)) by ring. exact Hd. }
  destruct (Req_dec_T p p1) as [Heq | Hne].
  - rewrite Heq in *. replace (p1 - p1) with 0 in * by ring.
    rewrite Rmult_0_r in Hq1. rewrite Hq1, Rabs_R0. lra.
  - destruct (mean_value p1 p (not_eq_sym Hne)) as [eta Heta].
    replace (func p) with ((func' eta - func' xi) * (p - p1)) by lra.
    rewrite Rabs_mult. apply Rmult_le_compat_r; [apply Rabs_pos |].
    pose proof (func'_range xi). pose proof (func'_range eta).
    apply Rabs_le. lra.
Qed.

Lemma tol_pos : 0 < tol.
Proof. unfold tol; lra. Qed.

(** The loop returns only after a step of length at most [tol]. *)
Lemma secant_loop_residual (n : nat) :
  forall p0 p1 p,
    p0 <> p1 ->
    secant_loop func n p0 (func p0) p1 (func p1) = Ok p ->
    Rabs (func p) <= (hi - lo) * tol.
Proof.
  induction n as [| n IH]; intros p0 p1 p Hp Hret; [discriminate |].
  rewrite secant_loop_S in Hret.
  destruct (Req_dec_T (func p1) (func p0)) as [Hq | Hq].
  - destruct (Req_dec_T p1 p0) as [Heq | _]; [| discriminate].
    symmetry in Heq; contradiction.
  - pose proof (secant_step_residual p0 p1 Hp Hq) as Hres.
    set (p' := secant_step p0 (func p0) p1 (func p1)) in *.
    assert (Hwidth : 0 <= hi - lo) by (pose proof (func'_range 0); lra).
    destruct (Rle_dec (Rabs (p' - p1)) tol) as [Hclose | Hfar].
    + injection Hret as <-.
      apply Rle_trans with (1 := Hres).
      apply Rmult_le_compat_l; assumption.
    + apply (IH p1 p' p); [| exact Hret].
      intros Heq. apply Hfar. rewrite <- Heq.
      replace (p1 - p1) with 0 by ring. rewrite Rabs_R0.
      left; exact tol_pos.
Qed.

(** The residual at whatever the solver returns. *)
Lemma newton_residual (x0 p : R) :
  newton func x0 = Ok p -> Rabs (func p) <= (hi - lo) * tol.
Proof.
  unfold newton; cbv zeta.
  assert (Hne : x0 <> newton_x1 x0).
  { intros Heq. pose proof (newton_x1_away x0) as Haway.
    rewrite <- Heq in Haway. replace (x0 - x0) with 0 in Haway by ring.
    rewrite Rabs_R0 in Haway. unfold eps in Haway. lra. }
  destruct (Rlt_dec _ _).
  - apply secant_loop_residual. exact (not_eq_sym Hne).
  - apply secant_loop_residual. exact Hne.
Qed.

End SecantResidual.

(** The derivative of the residual is [1 - e * cos E], within
    [[1 - e, 1 + e]]. *)
Lemma kepler_derivative (e M E : R) :
  derivable_pt_lim (fun E => kepler E e M) E (1 - e * cos E).
Proof.
  unfold kepler.
  replace (1 - e * cos E) with (1 - e * cos E - 0) by ring.
  apply (derivable_pt_lim_minus (id - mult_real_fct e sin)%F (fct_cte M)).
  - apply derivable_pt_lim_minus; [apply derivable_pt_lim_id |].
    apply derivable_pt_lim_scal, derivable_pt_lim_sin.
  - apply derivable_pt_lim_const.
Qed.

(** Whatever the root solve returns has a residual of at most
    [2 * e * tol]: the solver bounds its last step, not the residual. *)
Lemma solve_kepler_residual (e M E : R) :
  0 <= e -> solve_kepler e M = Ok E ->
  Rabs (kepler E e M) <= 2 * e * Lib.tol.
Proof.
  intros He Hret.
  replace (2 * e) with ((1 + e) - (1 - e)) by ring.
  apply (newton_residual (fun E => kepler E e M) (fun E => 1 - e * cos E)
           (1 - e) (1 + e)) with (x0 := M).
  - intros x; apply kepler_derivative.
  - intros x. pose proof (COS_bound x). nra.
  - exact Hret.
Qed.

(** Below [e = 1/2] that is less than [tol]. *)
Lemma solve_kepler_residual_small (e M E : R) :
  0 <= e < 1 / 2 -> solve_kepler e M = Ok E ->
  Rabs (kepler E e M) < Lib.tol.
Proof.
  intros He Hret. pose proof tol_pos.
  apply Rle_lt_trans with (2 * e * Lib.tol).
  - apply solve_kepler_residual; [lra | exact Hret].
  - nra.
Qed.

(** ** The circular orbit *)

Section Circular.

Import Lib.

(** [np.arctan2] gives back an angle of (-pi, pi] from its sine and
    cosine. *)
Lemma arctan2_sin_cos (th : R) :
  - PI < th <= PI -> arctan2 (sin th) (cos th) = th.
Proof.
  intros [Hlo Hhi]. pose proof PI_RGT_0 as Hpi. unfold arctan2.
  destruct (Rlt_dec th (- (PI / 2))) as [Ha | Ha].
  - (* third quadrant *)
    assert (Hc : cos th < 0).
    { rewrite <- cos_neg. apply cos_lt_0; lra. }
    assert (Hs : sin th < 0) by (apply sin_lt_0_var; lra).
    destruct (Rlt_dec 0 (cos th)); [lra |].
    destruct (Rlt_dec (cos th) 0); [| lra].
    destruct (Rle_dec 0 (sin th)); [lra |].
    replace (sin th / cos th) with (tan (th + PI)).
    + rewrite atan_tan; lra.
    + unfold tan. rewrite neg_sin, neg_cos. field. lra.
  - destruct (Req_dec_T th (- (PI / 2))) as [Hb | Hb].
    + subst th. rewrite cos_neg, sin_neg, cos_PI2, sin_PI2.
      destruct (Rlt_dec 0 0); [lra |].
      destruct (Rlt_dec 0 (- (1))); [lra |].
      destruct (Rlt_dec (- (1)) 0); [reflexivity | lra].
    + destruct (Rlt_dec th (PI / 2)) as [Hd | Hd].
      * (* right half plane *)
        assert (Hc : 0 < cos th) by (apply cos_gt_0; lra).
        destruct (Rlt_dec 0 (cos th)); [| lra].
        change (sin th / cos th) with (tan th).
        apply atan_tan; lra.
      * destruct (Req_dec_T th (PI / 2)) as [He | He].
        -- subst th. rewrite cos_PI2, sin_PI2.
           destruct (Rlt_dec 0 0); [lra |].
           destruct (Rlt_dec 0 1); [reflexivity | lra].
        -- (* second quadrant *)
           assert (Hc : cos th < 0) by (apply cos_lt_0; lra).
           assert (Hs : 0 <= sin th) by (apply sin_ge_0; lra).
           destruct (Rlt_dec 0 (cos th)); [lra |].
           destruct (Rlt_dec (cos th) 0); [| lra].
           destruct (Rle_dec 0 (sin th)); [| lra].
           replace (sin th / cos th) with (tan (th - PI)).
           ++ rewrite atan_tan; lra.
           ++ unfold tan.
              replace (sin th) with (- sin (th - PI))
                by (rewrite <- neg_sin; f_equal; ring).
              replace (cos th) with (- cos (th - PI))
                by (rewrite <- neg_cos; f_equal; ring).
              field. rewrite <- cos_neg.
              replace (- (th - PI)) with (PI - th) by ring.
              apply Rgt_not_eq. apply cos_gt_0; lra.
Qed.

Lemma np_sqrt_1 : np_sqrt 1 = Some 1.
Proof.
  unfold np_sqrt. destruct (Rlt_dec 1 0); [lra |]. now rewrite sqrt_1.
Qed.

(** At [e = 0] the true anomaly is [2 * arctan2 (sin (E/2)) (cos (E/2))]:
    never [nan], and [E] itself on (-2 pi, 2 pi]. *)
Lemma true_anomaly_circular (E : R) :
  true_anomaly 0 E = Some (2 * arctan2 (sin (E / 2)) (cos (E / 2))).
Proof.
  unfold true_anomaly.
  replace (1 + 0) with 1 by ring. replace (1 - 0) with 1 by ring.
  rewrite np_sqrt_1, !Rmult_1_l. reflexivity.
Qed.

Lemma true_anomaly_circular_id (E : R) :
  - (2 * PI) < E <= 2 * PI -> true_anomaly 0 E = Some E.
Proof.
  intros HE. rewrite true_anomaly_circular, arctan2_sin_cos by lra.
  f_equal; field.
Qed.

(** At [e = 0] the residual is [E - M]: the solve started at [M] returns
    [M]. *)
Lemma solve_kepler_circular (M : R) : solve_kepler 0 M = Ok M.
Proof.
  unfold solve_kepler. apply newton_exact_start.
  - unfold kepler; ring.
  - unfold kepler. pose proof (newton_x1_away M) as Haway.
    intros Hq.
    replace (M - newton_x1 M) with (- 0) in Haway by lra.
    rewrite Rabs_Ropp, Rabs_R0 in Haway. unfold eps in Haway; lra.
Qed.

End Circular.

(** ** What the list comprehension and the interpolation return *)

Section Plumbing.

Import Lib.

Context {A B : Type} (g : A -> result B).

(** The comprehension returns when its body returns on every element, and
    then it has one result per element. *)
Lemma mapM_all_ok (l : list A) :
  (forall a, In a l -> exists b, g a = Ok b) ->
  exists bs, mapM g l = Ok bs /\ length bs = length l.
Proof.
  induction l as [| a l IH]; intros Hall.
  - exists []; split; reflexivity.
  - destruct (Hall a (or_introl eq_refl)) as [b Hb].
    destruct IH as (bs & Hbs & Hlen).
    { intros a' Ha'. apply Hall. right; exact Ha'. }
    exists (b :: bs). cbn [mapM bind]. rewrite Hb. cbn [bind]. rewrite Hbs.
    cbn [bind length]. split; [reflexivity | now rewrite Hlen].
Qed.

Lemma mapM_ok_length (l : list A) (bs : list B) :
  mapM g l = Ok bs -> length bs = length l.
Proof.
  revert bs. induction l as [| a l IH]; intros bs H; cbn [mapM bind] in H.
  - injection H as <-. reflexivity.
  - destruct (g a) as [b | x]; [| discriminate]. cbn [bind] in H.
    destruct (mapM g l) as [bs' | x]; [| discriminate]. cbn [bind] in H.
    injection H as <-. cbn [length]. now rewrite (IH bs' eq_refl).
Qed.

(** It raises exactly when its body raises on some element. *)
Lemma mapM_raises_iff (l : list A) :
  (exists x, mapM g l = Raise x)
  <-> exists a, In a l /\ exists x, g a = Raise x.
Proof.
  induction l as [| a l IH]; cbn [mapM bind].
  - split; [intros [x H]; discriminate | intros (a & [] & _)].
  - destruct (g a) as [b | x] eqn:Ha; cbn [bind].
    + destruct (mapM g l) as [bs | x] eqn:Hl; cbn [bind].
      * split; [intros [x H]; discriminate |].
        intros (a' & [<- | Hin] & x & Hx); [congruence |].
        destruct IH as [_ IH]. destruct IH as [x' Hx']; [| discriminate].
        exists a'; split; [exact Hin | exists x; exact Hx].
      * split; [| intros _; exists x; reflexivity].
        intros _. destruct IH as [IH _].
        destruct (IH (ex_intro _ x eq_refl)) as (a' & Hin & Hx).
        exists a'; split; [right; exact Hin | exact Hx].
    + split; [| intros _; exists x; reflexivity].
      intros _. exists a; split; [left; reflexivity | exists x; exact Ha].
Qed.

End Plumbing.

Section ConstantSamples.

Import Lib.

Variable y : npfloat.

Lemma insert_pt_flat (p : R * npfloat) (l : list (R * npfloat)) :
  snd p = y -> flat y l -> flat y (insert_pt p l).
Proof.
  intros Hp Hl. induction Hl as [| q l Hq Hl IH]; cbn [insert_pt].
  - repeat constructor; exact Hp.
  - destruct (Rle_dec (fst p) (fst q)).
    + repeat constructor; assumption.
    + constructor; assumption.
Qed.

Lemma sort_pts_flat (l : list (R * npfloat)) : flat y l -> flat y (sort_pts l).
Proof.
  induction 1 as [| p l Hp Hl IH]; cbn [sort_pts].
  - constructor.
  - apply insert_pt_flat; assumption.
Qed.

Lemma insert_pt_length (p : R * npfloat) (l : list (R * npfloat)) :
  length (insert_pt p l) = S (length l).
Proof.
  induction l as [| q l IH]; cbn [insert_pt]; [reflexivity |].
  destruct (Rle_dec (fst p) (fst q)); cbn [length]; [reflexivity |].
  now rewrite IH.
Qed.

Lemma sort_pts_length (l : list (R * npfloat)) :
  length (sort_pts l) = length l.
Proof.
  induction l as [| p l IH]; cbn [sort_pts]; [reflexivity |].
  rewrite insert_pt_length, IH. reflexivity.
Qed.

Lemma last_flat (l : list (R * npfloat)) (d : R * npfloat) :
  flat y l -> snd d = y -> snd (last l d) = y.
Proof.
  intros Hl Hd. induction Hl as [| p l Hp Hl IH]; [exact Hd |].
  cbn [last]. destruct l; [exact Hp | exact IH].
Qed.

Lemma wrap_pts_flat (l : list (R * npfloat)) (period : R) :
  flat y l -> flat y (wrap_pts l period).
Proof.
  intros Hl. destruct l as [| first l]; [constructor |].
  unfold wrap_pts.
  assert (Hfirst : snd first = y) by now inversion Hl.
  constructor; [apply last_flat; assumption |].
  apply Forall_app; split; [exact Hl |].
  constructor; [exact Hfirst | constructor].
Qed.

Lemma lin_flat (p q : R * npfloat) (x : R) :
  snd p = y -> snd q = y -> lin p q x = y.
Proof.
  intros Hp Hq. unfold lin. rewrite Hp, Hq.
  destruct y as [v |]; [| reflexivity].
  f_equal. unfold Rdiv. ring.
Qed.

Lemma interp_from_flat (x : R) (p : R * npfloat) (rest : list (R * npfloat)) :
  snd p = y -> flat y rest -> interp_from x p rest = y.
Proof.
  intros Hp Hrest. revert p Hp.
  induction Hrest as [| q rest Hq Hrest IH]; intros p Hp; cbn [interp_from].
  - exact Hp.
  - destruct (Rle_dec (fst q) x); [apply IH; exact Hq |].
    destruct (Req_dec_T (fst p) x); [exact Hp |].
    apply lin_flat; assumption.
Qed.

Lemma interp1_flat (pts : list (R * npfloat)) (x : R) :
  pts <> [] -> flat y pts -> interp1 pts x = y.
Proof.
  intros Hne Hpts. destruct pts as [| p rest]; [contradiction |].
  inversion Hpts as [| p' rest' Hp Hrest]. cbn [interp1].
  destruct (Rlt_dec x (fst p)); [exact Hp |].
  apply interp_from_flat; assumption.
Qed.

(** A grid whose velocities are all [y] interpolates to [y] at every
    query: the periodic interpolation raises only for a zero period or an
    empty grid. *)
Lemma interp_flat (x xp : list R) (fp : list npfloat) (T : R) :
  T <> 0 -> length xp = length fp -> xp <> [] ->
  Forall (fun v => v = y) fp ->
  interp x xp fp T = Ok (map (fun _ => y) x).
Proof.
  intros HT Hlen Hne Hfp. unfold interp.
  destruct (Req_dec_T T 0); [contradiction |].
  rewrite Hlen, Nat.eqb_refl. cbn [negb]. cbv zeta.
  set (pts := sort_pts (combine (map (fun v => np_mod v (Rabs T)) xp) fp)).
  assert (Hflat : flat y pts).
  { apply sort_pts_flat, Forall_forall. intros [u v] Hin.
    apply in_combine_r in Hin. cbn [snd].
    exact (proj1 (Forall_forall _ _) Hfp v Hin). }
  assert (Hpts : pts <> []).
  { intros Heq. apply (f_equal (@length _)) in Heq. unfold pts in Heq.
    rewrite sort_pts_length, length_combine, length_map, <- Hlen,
      Nat.min_id in Heq.
    destruct xp; [contradiction | discriminate]. }
  pose proof (wrap_pts_flat pts (Rabs T) Hflat) as Hw.
  destruct pts as [| first pts']; [contradiction |].
  cbn [wrap_pts] in *. cbv zeta in *.
  f_equal. rewrite map_map. apply map_ext; intros v.
  apply interp1_flat; [discriminate | exact Hw].
Qed.

End ConstantSamples.

(** ** The steps of the synthesizer *)

Section Synthesizer.

Import Lib.

Lemma linspace_negative (start stop : R) (num : Z) :
  (num < 0)%Z -> linspace start stop num = Raise ValueError.
Proof.
  intros H. unfold linspace.
  destruct (Z.ltb_spec num 0); [reflexivity | lia].
Qed.

Lemma linspace_length (start stop : R) (num : Z) (t : list R) :
  linspace start stop num = Ok t ->
  (0 <= num)%Z /\ length t = Z.to_nat num.
Proof.
  unfold linspace. destruct (Z.ltb_spec num 0) as [Hn | Hn]; [discriminate |].
  intros H. split; [exact Hn |].
  destruct (Z.to_nat num) as [| [| n]]; injection H as <-; try reflexivity.
  cbn [length]. now rewrite length_map, length_seq.
Qed.

Lemma linspace_returns (start stop : R) (num : Z) :
  (0 <= num)%Z -> exists t, linspace start stop num = Ok t.
Proof.
  intros H. unfold linspace.
  destruct (Z.ltb_spec num 0) as [Hn | Hn]; [lia |].
  destruct (Z.to_nat num) as [| [| n]]; eexists; reflexivity.
Qed.

Lemma linspace_one (start stop : R) : linspace start stop 1 = Ok [start].
Proof. reflexivity. Qed.

(** Two samples are the two ends. *)
Lemma linspace_two (start stop : R) :
  linspace start stop 2 = Ok [start; stop].
Proof.
  unfold linspace. change (2 <? 0)%Z with false.
  change (Z.to_nat 2) with 2%nat. cbn. do 2 f_equal. ring.
Qed.

Lemma py_div_nonzero (x y : R) : y <> 0 -> py_div x y = Ok (x / y).
Proof.
  intros H. unfold py_div. destruct (Req_dec_T y 0); [contradiction | reflexivity].
Qed.

Lemma py_div_zero (x : R) : py_div x 0 = Raise ZeroDivisionError.
Proof.
  unfold py_div. destruct (Req_dec_T 0 0); [reflexivity | contradiction].
Qed.

(** The interpolation returns one value per query as soon as the period
    is not zero and the grid is not empty. *)
Lemma interp_returns (x xp : list R) (fp : list npfloat) (T : R) :
  T <> 0 -> length xp = length fp -> xp <> [] ->
  exists RVs, interp x xp fp T = Ok RVs /\ length RVs = length x.
Proof.
  intros HT Hlen Hne. unfold interp.
  destruct (Req_dec_T T 0); [contradiction |].
  rewrite Hlen, Nat.eqb_refl. cbn [negb]. cbv zeta.
  set (pts := sort_pts (combine (map (fun v => np_mod v (Rabs T)) xp) fp)).
  destruct pts as [| first pts'] eqn:Hpts.
  - apply (f_equal (@length _)) in Hpts. unfold pts in Hpts.
    rewrite sort_pts_length, length_combine, length_map, <- Hlen,
      Nat.min_id in Hpts.
    destruct xp; [contradiction | discriminate].
  - cbn [wrap_pts]. cbv zeta. eexists; split; [reflexivity |].
    rewrite !length_map. reflexivity.
Qed.

Lemma interp_no_sample (x : list R) (T : R) :
  exists err, interp x [] [] T = Raise err.
Proof.
  unfold interp. destruct (Req_dec_T T 0); eexists; reflexivity.
Qed.

Variables K T t0 w e a VZ : R.
Variable NT : Z.
Variable ts : list R.

(** After the grid and the division, [get_RVs] is the root solves over
    the mean anomalies followed by the interpolation of the grid
    velocities. *)
Lemma get_RVs_steps (t : list R) :
  linspace t0 (t0 + T) NT = Ok t -> T <> 0 ->
  get_RVs K T t0 w e a VZ NT ts
  = (E <- mapM (solve_kepler e) (mean_anomalies T t0 NT) ;;
     interp ts t (map (grid_velocity K w e VZ) E) T).
Proof.
  intros Ht HT. unfold get_RVs, mean_anomalies. rewrite Ht. cbn [bind].
  rewrite (py_div_nonzero _ _ HT). cbn [bind].
  destruct (mapM _ _) as [E | x]; [| reflexivity].
  cbn [bind]. rewrite map_map. reflexivity.
Qed.

(** [get_RVs] raises exactly when the grid is empty or cannot be built,
    the period is zero, or a root solve raises. *)
Lemma get_RVs_raises_iff :
  (exists x, get_RVs K T t0 w e a VZ NT ts = Raise x)
  <-> ((NT <= 0)%Z \/ T = 0
       \/ exists Mk, In Mk (mean_anomalies T t0 NT)
                     /\ exists x, solve_kepler e Mk = Raise x).
Proof.
  destruct (Z.neg_nonneg_cases NT) as [Hneg | Hnn].
  { split; [intros _; left; lia |]. intros _.
    unfold get_RVs. rewrite (linspace_negative _ _ _ Hneg).
    eexists; reflexivity. }
  destruct (linspace_returns t0 (t0 + T) NT Hnn) as [t Ht].
  destruct (linspace_length _ _ _ _ Ht) as [_ Hlen].
  destruct (Req_dec_T T 0) as [HT | HT].
  { split; [intros _; right; left; exact HT |]. intros _.
    unfold get_RVs. rewrite Ht. cbn [bind]. rewrite HT, py_div_zero.
    eexists; reflexivity. }
  rewrite (get_RVs_steps t Ht HT).
  pose proof (mapM_raises_iff (solve_kepler e) (mean_anomalies T t0 NT))
    as Hsolve.
  destruct (mapM (solve_kepler e) (mean_anomalies T t0 NT)) as [E | x] eqn:HE;
    cbn [bind].
  - assert (HlenE : length t = length (map (grid_velocity K w e VZ) E)).
    { rewrite length_map, (mapM_ok_length _ _ _ HE).
      unfold mean_anomalies. rewrite Ht, length_map. reflexivity. }
    destruct t as [| t1 t'].
    + destruct E; [| discriminate]. cbn [map].
      split; [intros _; left; cbn [length] in Hlen; lia |].
      intros _. apply interp_no_sample.
    + destruct (interp_returns ts (t1 :: t') _ T HT HlenE) as (RVs & HRVs & _);
        [discriminate |].
      rewrite HRVs. split; [intros [x Hx]; discriminate |].
      intros [Hle | [H0 | Hfail]].
      * cbn [length] in Hlen; lia.
      * contradiction.
      * apply Hsolve in Hfail. destruct Hfail as [x Hx]; discriminate.
  - split; [| intros _; exists x; reflexivity].
    intros _. right; right. apply Hsolve. exists x; reflexivity.
Qed.

(** What [get_RVs] returns is aligned with [ts]. *)
Lemma get_RVs_length (RVs : list npfloat) :
  get_RVs K T t0 w e a VZ NT ts = Ok RVs -> length RVs = length ts.
Proof.
  unfold get_RVs.
  destruct (linspace t0 (t0 + T) NT) as [t | x]; [| discriminate].
  cbn [bind]. destruct (py_div (2 * PI) T) as [c | x]; [| discriminate].
  cbn [bind]. destruct (mapM _ _) as [E | x]; [| discriminate].
  cbn [bind]. unfold interp.
  destruct (Req_dec_T T 0); [discriminate |].
  destruct (negb _); [discriminate |]. cbv zeta.
  destruct (wrap_pts _ _); [discriminate |].
  intros H; injection H as <-. rewrite !length_map. reflexivity.
Qed.

End Synthesizer.

(** ** Grid points where the solve starts on the root *)

Section GridEnds.

Import Lib.

(** On (0, 1) the sine is above half its argument. *)
Lemma sin_above_half (x : R) : 0 < x < 1 -> x / 2 < sin x.
Proof.
  intros Hx. pose proof PI2_1 as Hpi.
  destruct (sin_bound x 0) as [Hlo _]; [lra | lra |].
  unfold sin_approx, sin_term in Hlo. simpl in Hlo. nra.
Qed.

Lemma delta_range : 0 < delta < 1.
Proof.
  unfold delta, eps. pose proof PI_RGT_0. pose proof PI_4. lra.
Qed.

Lemma eps_range : 0 < eps < 1.
Proof. unfold eps; lra. Qed.

Lemma newton_x1_0 : newton_x1 0 = eps.
Proof.
  unfold newton_x1; cbv zeta.
  destruct (Rle_dec 0 (0 * (1 + eps))); [ring | lra].
Qed.

Lemma newton_x1_2PI : newton_x1 (2 * PI) = 2 * PI + delta.
Proof.
  unfold newton_x1, delta; cbv zeta. pose proof PI_RGT_0.
  destruct (Rle_dec 0 (2 * PI * (1 + eps))) as [_ | Hn]; [ring |].
  unfold eps in Hn. nra.
Qed.

Variable e : R.

(** At the first grid point the mean anomaly is 0, a root. *)
Lemma solve_kepler_0 : e * sin eps <> eps -> solve_kepler e 0 = Ok 0.
Proof.
  intros He. unfold solve_kepler. apply newton_exact_start.
  - unfold kepler. rewrite sin_0. ring.
  - rewrite newton_x1_0. unfold kepler. lra.
Qed.

(** At the last grid point it is 2 pi, a root as well. *)
Lemma solve_kepler_2PI :
  e * sin delta <> delta -> solve_kepler e (2 * PI) = Ok (2 * PI).
Proof.
  intros He. unfold solve_kepler. apply newton_exact_start.
  - unfold kepler. rewrite sin_2PI. ring.
  - rewrite newton_x1_2PI. unfold kepler.
    replace (sin (2 * PI + delta)) with (sin delta).
    + lra.
    + rewrite Rplus_comm. symmetry.
      replace (delta + 2 * PI) with (delta + 2 * INR 1 * PI)
        by (cbn [INR]; ring).
      apply sin_period.
Qed.

(** The residual at the second starting point does not vanish for an
    eccentricity up to 1, nor at [e = 2]. *)
Lemma off_root_le_1 (x : R) : 0 < x < 1 -> e <= 1 -> e * sin x <> x.
Proof.
  intros Hx He. pose proof PI2_1 as Hpi.
  assert (Hs : 0 < sin x) by (apply sin_gt_0; lra).
  assert (Hlt : sin x < x) by (apply sin_lt_x; lra).
  nra.
Qed.

Lemma off_root_2 (x : R) : 0 < x < 1 -> 2 * sin x <> x.
Proof.
  intros Hx. pose proof (sin_above_half x Hx). lra.
Qed.

End GridEnds.

Section GridVelocity.

Import Lib.

Variables K w e VZ : R.

(** Above [e = 1] the square root of [1 - e] is [nan], and so is every
    grid velocity. *)
Lemma grid_velocity_nan (E : R) : 1 < e -> grid_velocity K w e VZ E = None.
Proof.
  intros He. unfold grid_velocity, true_anomaly, np_sqrt.
  destruct (Rlt_dec (1 + e) 0); [reflexivity |].
  destruct (Rlt_dec (1 - e) 0); [reflexivity | lra].
Qed.

(** At [E = 0] the true anomaly is 0 up to [e = 1] included. *)
Lemma true_anomaly_periastron : 0 <= e <= 1 -> true_anomaly e 0 = Some 0.
Proof.
  intros He. unfold true_anomaly, np_sqrt.
  destruct (Rlt_dec (1 + e) 0); [lra |].
  destruct (Rlt_dec (1 - e) 0); [lra |].
  f_equal. replace (0 / 2) with 0 by field. rewrite sin_0, cos_0.
  rewrite Rmult_0_r, Rmult_1_r. unfold arctan2.
  pose proof (sqrt_pos (1 - e)) as Hs.
  destruct (Rlt_dec 0 (sqrt (1 - e))).
  - unfold Rdiv. rewrite Rmult_0_l, atan_0. ring.
  - destruct (Rlt_dec (sqrt (1 - e)) 0); [lra |].
    destruct (Rlt_dec 0 0); [lra | ring].
Qed.

Lemma grid_velocity_periastron :
  0 <= e <= 1 ->
  grid_velocity K w e VZ 0 = Some (VZ + K * ((1 + e) * cos (w * PI / 180))).
Proof.
  intros He. unfold grid_velocity.
  rewrite (true_anomaly_periastron He). cbn [lift1 option_map].
  unfold vr; cbv zeta. rewrite Rplus_0_r.
  replace (w * (PI / 180)) with (w * PI / 180) by field.
  f_equal. ring.
Qed.

End GridVelocity.

(** ** Grids of one and of two points *)

Section SmallGrids.

Import Lib.

Variables K T t0 w e a VZ : R.
Variable ts : list R.

Lemma mean_anomalies_one : mean_anomalies T t0 1 = [0].
Proof.
  unfold mean_anomalies. rewrite linspace_one. cbn [map].
  f_equal. ring.
Qed.

Lemma mean_anomalies_two : T <> 0 -> mean_anomalies T t0 2 = [0; 2 * PI].
Proof.
  intros HT. unfold mean_anomalies. rewrite linspace_two. cbn [map].
  f_equal; [ring |]. f_equal. field. exact HT.
Qed.

(** With [NT = 1] the grid is the single time [t0]; the one root solve
    starts on its root, and every query gets the velocity of that grid
    point. *)
Lemma get_RVs_one_sample :
  T <> 0 -> e * sin eps <> eps ->
  get_RVs K T t0 w e a VZ 1 ts
  = Ok (map (fun _ => grid_velocity K w e VZ 0) ts).
Proof.
  intros HT He.
  rewrite (get_RVs_steps K T t0 w e a VZ 1 ts [t0] (linspace_one _ _) HT).
  rewrite mean_anomalies_one. cbn [mapM bind].
  rewrite (solve_kepler_0 e He). cbn [bind map].
  apply interp_flat; try assumption; try reflexivity; try discriminate.
  repeat constructor.
Qed.

(** With [NT = 2] the grid is the two ends of the period, both started on
    their root. *)
Lemma get_RVs_two_samples :
  T <> 0 -> e * sin eps <> eps -> e * sin delta <> delta ->
  get_RVs K T t0 w e a VZ 2 ts
  = interp ts [t0; t0 + T]
           [grid_velocity K w e VZ 0; grid_velocity K w e VZ (2 * PI)] T.
Proof.
  intros HT He0 He1.
  rewrite (get_RVs_steps K T t0 w e a VZ 2 ts _ (linspace_two _ _) HT).
  rewrite (mean_anomalies_two HT). cbn [mapM bind].
  rewrite (solve_kepler_0 e He0). cbn [bind].
  rewrite (solve_kepler_2PI e He1). cbn [bind map]. reflexivity.
Qed.

End SmallGrids.

(** Beyond [e = 1] on a grid of two points: an array of [nan], no
    exception. *)
Lemma get_RVs_two_samples_nan (K T t0 w a VZ : R) (ts : list R) :
  T <> 0 -> get_RVs K T t0 w 2 a VZ 2 ts = Ok (map (fun _ => None) ts).
Proof.
  intros HT.
  rewrite get_RVs_two_samples;
    [| exact HT | apply off_root_2, eps_range | apply off_root_2, delta_range].
  rewrite !grid_velocity_nan by lra.
  apply interp_flat; try assumption; try reflexivity; try discriminate.
  repeat constructor.
Qed.

(** Beyond [e = 1] whatever [get_RVs] returns is [nan] throughout. *)
Lemma get_RVs_nan (K T t0 w e a VZ : R) (NT : Z) (times : list R)
  (RVs : list npfloat) :
  1 < e -> get_RVs K T t0 w e a VZ NT times = Ok RVs ->
  RVs = map (fun _ => None) times.
Proof.
  intros He HRVs.
  destruct (Lib.linspace t0 (t0 + T) NT) as [t | x] eqn:Ht;
    [| unfold get_RVs in HRVs; rewrite Ht in HRVs; discriminate].
  destruct (Req_dec_T T 0) as [HT | HT].
  { unfold get_RVs in HRVs. rewrite Ht in HRVs. cbn [bind] in HRVs.
    rewrite HT, py_div_zero in HRVs. discriminate. }
  rewrite (get_RVs_steps K T t0 w e a VZ NT times t Ht HT) in HRVs.
  destruct (mapM (solve_kepler e) (mean_anomalies T t0 NT)) as [E | x] eqn:HE;
    [| discriminate].
  cbn [bind] in HRVs.
  assert (Hlen : length t = length (map (grid_velocity K w e VZ) E)).
  { rewrite length_map, (mapM_ok_length _ _ _ HE).
    unfold mean_anomalies. rewrite Ht, length_map. reflexivity. }
  destruct t as [| t1 t'].
  - destruct E; [| discriminate].
    destruct (interp_no_sample times T) as [err Herr].
    cbn [map] in HRVs. rewrite Herr in HRVs. discriminate.
  - rewrite (interp_flat None) in HRVs; try assumption; try discriminate.
    + now injection HRVs as <-.
    + apply Forall_forall. intros v Hv. apply in_map_iff in Hv.
      destruct Hv as (Ek & <- & _). apply grid_velocity_nan; exact He.
Qed.

(** ** Degenerate parameters *)

(** C3 (as amended): [get_RVs] makes no check of the eccentricity.  With
    [e >= 1] it raises exactly when [NT <= 0], [T = 0] or a root solve
    raises at one of the grid's mean anomalies, which are the exceptions of
    the library calls; otherwise it returns an array aligned with [ts],
    [nan] throughout when [e > 1]. *)
Theorem get_RVs_eccentricity_unchecked
  (K T t0 w e a VZ : R) (NT : Z) (ts : list R) :
  1 <= e ->
  ((exists x, get_RVs K T t0 w e a VZ NT ts = Raise x)
   <-> ((NT <= 0)%Z \/ T = 0
        \/ exists Mk, In Mk (mean_anomalies T t0 NT)
                      /\ exists x, solve_kepler e Mk = Raise x))
  /\ (forall RVs, get_RVs K T t0 w e a VZ NT ts = Ok RVs ->
        length RVs = length ts
        /\ (1 < e -> RVs = map (fun _ => None) ts)).
Proof.
  intros _. split; [apply get_RVs_raises_iff |].
  intros RVs HRVs. split.
  - exact (get_RVs_length K T t0 w e a VZ NT ts RVs HRVs).
  - intros He. exact (get_RVs_nan K T t0 w e a VZ NT ts RVs He HRVs).
Qed.

Lemma get_RVs_eccentricity_unchecked_at_2 :
  ((exists x, get_RVs 1 1 0 0 2 1 0 2 [0] = Raise x)
   <-> ((2 <= 0)%Z \/ 1 = 0
        \/ exists Mk, In Mk (mean_anomalies 1 0 2)
                      /\ exists x, solve_kepler 2 Mk = Raise x))
  /\ (forall RVs, get_RVs 1 1 0 0 2 1 0 2 [0] = Ok RVs ->
        length RVs = length [0]
        /\ (1 < 2 -> RVs = map (fun _ => None) [0])).
Proof.
  apply (get_RVs_eccentricity_unchecked 1 1 0 0 2 1 0 2 [0]). lra.
Defined.

(** C3 (as stated) fails at K = 1, T = 1, t0 = 0, w = 0, e = 2, a = 1,
    VZ = 0, NT = 2, ts = [0]: both root solves start on their root, the
    square root of 1 - e is [nan], and the call returns [[nan]]. *)
Lemma get_RVs_returns_at_e_2 :
  get_RVs 1 1 0 0 2 1 0 2 [0] = Ok [None]
  /\ ~ (exists x, get_RVs 1 1 0 0 2 1 0 2 [0] = Raise x).
Proof.
  assert (H : get_RVs 1 1 0 0 2 1 0 2 [0] = Ok [None]).
  { rewrite get_RVs_two_samples_nan by lra. reflexivity. }
  split; [exact H |]. intros [x Hx]. rewrite H in Hx. discriminate.
Qed.

(** C4 (as amended): with [NT = 1] the grid is the single time [t0] and
    nothing is raised for it: when [T <> 0] and [e <= 1] the call returns,
    at every time of [ts], the velocity of that grid point, which is
    [VZ + K * (1 + e) * cos (w * pi / 180)] when moreover [0 <= e]. *)
Theorem get_RVs_single_point_grid (K T t0 w e a VZ : R) (ts : list R) :
  T <> 0 -> e <= 1 ->
  get_RVs K T t0 w e a VZ 1 ts
  = Ok (map (fun _ => grid_velocity K w e VZ 0) ts)
  /\ (0 <= e ->
      grid_velocity K w e VZ 0
      = Some (VZ + K * ((1 + e) * cos (w * PI / 180)))).
Proof.
  intros HT He. split.
  - apply get_RVs_one_sample; [exact HT |].
    apply off_root_le_1; [apply eps_range | exact He].
  - intros He0. apply grid_velocity_periastron. lra.
Qed.

Lemma get_RVs_single_point_grid_circular :
  get_RVs 1 1 0 0 0 1 0 1 [0; 1 / 2]
  = Ok (map (fun _ => grid_velocity 1 0 0 0 0) [0; 1 / 2])
  /\ (0 <= 0 ->
      grid_velocity 1 0 0 0 0 = Some (0 + 1 * ((1 + 0) * cos (0 * PI / 180)))).
Proof.
  apply (get_RVs_single_point_grid 1 1 0 0 0 1 0 [0; 1 / 2]); lra.
Defined.

(** C4 (as stated) fails at K = 1, T = 1, t0 = 0, w = 0, e = 0, a = 1,
    VZ = 0, NT = 1, ts = [0]: the grid is [[0]], the solve returns 0, the
    velocity there is 1, and the call returns [[1]]. *)
Lemma get_RVs_returns_at_NT_1 :
  get_RVs 1 1 0 0 0 1 0 1 [0] = Ok [Some 1]
  /\ ~ (exists x, get_RVs 1 1 0 0 0 1 0 1 [0] = Raise x).
Proof.
  assert (H : get_RVs 1 1 0 0 0 1 0 1 [0] = Ok [Some 1]).
  { rewrite get_RVs_one_sample;
      [| lra | apply off_root_le_1; [apply eps_range | lra]].
    rewrite grid_velocity_periastron by lra. cbn [map].
    do 3 f_equal. replace (0 * PI / 180) with 0 by field.
    rewrite cos_0. ring. }
  split; [exact H |]. intros [x Hx]. rewrite H in Hx. discriminate.
Qed.

(** ** The circular orbit, end to end *)

(** The mean anomalies of the grid run from 0 to 2 pi. *)
Lemma mean_anomalies_range (T t0 : R) (NT : Z) (Mk : R) :
  T <> 0 -> In Mk (mean_anomalies T t0 NT) -> 0 <= Mk <= 2 * PI.
Proof.
  intros HT. pose proof PI_RGT_0 as Hpi.
  unfold mean_anomalies, Lib.linspace.
  destruct (NT <? 0)%Z; [intros [] |].
  destruct (Z.to_nat NT) as [| [| n]]; [intros [] | |].
  - intros [<- | []]. replace (t0 - t0) with 0 by ring. lra.
  - rewrite map_map. intros Hin. apply in_map_iff in Hin.
    destruct Hin as (i & <- & Hi). apply in_seq in Hi.
    destruct (Nat.eqb_spec i (S n)) as [_ | Hne].
    + replace (2 * PI / T * (t0 + T - t0)) with (2 * PI) by (field; exact HT).
      lra.
    + assert (Hn : 0 < INR (S n)) by (apply lt_0_INR; lia).
      assert (Hi0 : 0 <= INR i) by apply pos_INR.
      assert (Hile : INR i <= INR (S n)) by (apply le_INR; lia).
      replace (2 * PI / T * (t0 + INR i * ((t0 + T - t0) / INR (S n)) - t0))
        with (2 * PI * (INR i / INR (S n))) by (field; split; lra).
      assert (Hratio : 0 <= INR i / INR (S n) <= 1).
      { split.
        - apply Rmult_le_pos; [exact Hi0 |].
          left; apply Rinv_0_lt_compat; exact Hn.
        - apply (Rmult_le_reg_r (INR (S n))); [exact Hn |].
          unfold Rdiv. rewrite Rmult_assoc, Rinv_l by lra. lra. }
      nra.
Qed.

(** One turn further, the true anomaly is [E] less two turns. *)
Lemma true_anomaly_circular_next_turn (E : R) :
  2 * PI < E < 6 * PI -> true_anomaly 0 E = Some (E - 4 * PI).
Proof.
  intros HE. rewrite true_anomaly_circular.
  replace (sin (E / 2)) with (sin (E / 2 - 2 * PI))
    by (rewrite sin_minus, sin_2PI, cos_2PI; ring).
  replace (cos (E / 2)) with (cos (E / 2 - 2 * PI))
    by (rewrite cos_minus, sin_2PI, cos_2PI; ring).
  rewrite arctan2_sin_cos by lra.
  f_equal; field.
Qed.

(** C6 (as amended): at [e = 0] the root solve returns [E = M] for every
    mean anomaly [M]; the true anomaly computed from it is [M] for every
    [M] strictly between -2 pi and 2 pi, and [M - 4 pi] for every [M]
    strictly between 2 pi and 6 pi. *)
Theorem circular_orbit_identity (M : R) :
  solve_kepler 0 M = Ok M
  /\ (- (2 * PI) < M < 2 * PI -> true_anomaly 0 M = Some M)
  /\ (2 * PI < M < 6 * PI -> true_anomaly 0 M = Some (M - 4 * PI)).
Proof.
  split; [apply solve_kepler_circular |]. split.
  - intros HM. apply true_anomaly_circular_id. lra.
  - apply true_anomaly_circular_next_turn.
Qed.

Lemma circular_orbit_identity_at_PI :
  solve_kepler 0 PI = Ok PI
  /\ true_anomaly 0 PI = Some PI
  /\ true_anomaly 0 (3 * PI) = Some (3 * PI - 4 * PI).
Proof.
  pose proof PI_RGT_0 as Hpi.
  destruct (circular_orbit_identity PI) as (HE & Hf & _).
  destruct (circular_orbit_identity (3 * PI)) as (_ & _ & Hg).
  split; [exact HE |]. split; [apply Hf; lra | apply Hg; lra].
Defined.

(** C6 (as stated) fails at the last point of the grid.  For T = 100 and
    t0 = 0 lines 47-48 give the last mean anomaly the binary64 value
    6.283185307179587, which lies above 2 pi; it is the binary64 value of
    M = 2 pi + 1e-15.  There the solve returns E = M, and the true anomaly
    computed from it is M - 4 pi, about -2 pi, and not M. *)
Lemma circular_orbit_grid_end :
  solve_kepler 0 (2 * PI + 1 / 10 ^ 15) = Ok (2 * PI + 1 / 10 ^ 15)
  /\ true_anomaly 0 (2 * PI + 1 / 10 ^ 15)
     = Some (2 * PI + 1 / 10 ^ 15 - 4 * PI)
  /\ true_anomaly 0 (2 * PI + 1 / 10 ^ 15) <> Some (2 * PI + 1 / 10 ^ 15).
Proof.
  pose proof PI_RGT_0 as Hpi.
  assert (Hsmall : 0 < 1 / 10 ^ 15 < 1).
  { split.
    - apply Rdiv_lt_0_compat; [lra | apply pow_lt; lra].
    - apply (Rmult_lt_reg_r (10 ^ 15)); [apply pow_lt; lra |].
      unfold Rdiv. rewrite Rmult_assoc, Rinv_l by (apply pow_nonzero; lra).
      assert (1 < 10 ^ 15) by (apply Rlt_pow_R1; [lra | lia]). lra. }
  assert (Hf : true_anomaly 0 (2 * PI + 1 / 10 ^ 15)
               = Some (2 * PI + 1 / 10 ^ 15 - 4 * PI)).
  { apply true_anomaly_circular_next_turn. pose proof PI2_1. lra. }
  split; [apply solve_kepler_circular |]. split; [exact Hf |].
  rewrite Hf. intros H. injection H as H. lra.
Qed.

(** * Further properties of the synthesizer *)

(** ** Queries are answered one by one *)

Section Batches.

Import Lib.

Lemma interp_app (x1 x2 xp : list R) (fp : list npfloat) (T : R) :
  interp (x1 ++ x2) xp fp T
  = (r1 <- interp x1 xp fp T ;; r2 <- interp x2 xp fp T ;; Ok (r1 ++ r2)).
Proof.
  unfold interp.
  destruct (Req_dec_T T 0); [reflexivity |].
  destruct (negb _); [reflexivity |]. cbv zeta.
  destruct (wrap_pts _ _); [reflexivity |].
  cbn [bind]. rewrite !map_app. reflexivity.
Qed.

End Batches.

(** X2: The result for two batches of times is the two results one after the
    other: an entry of the output depends on its own time only, and a call
    raises for the whole batch or for none of its parts. *)
Theorem get_RVs_batches (K T t0 w e a VZ : R) (NT : Z) (ts1 ts2 : list R) :
  get_RVs K T t0 w e a VZ NT (ts1 ++ ts2)
  = (r1 <- get_RVs K T t0 w e a VZ NT ts1 ;;
     r2 <- get_RVs K T t0 w e a VZ NT ts2 ;;
     Ok (r1 ++ r2)).
Proof.
  unfold get_RVs.
  destruct (Lib.linspace t0 (t0 + T) NT) as [t | x]; [| reflexivity].
  cbn [bind]. destruct (Lib.py_div (2 * PI) T) as [c | x]; [| reflexivity].
  cbn [bind]. destruct (mapM _ _) as [E | x]; [| reflexivity].
  cbn [bind]. apply interp_app.
Qed.

(** ** Which exception, and when *)

Section Exceptions.

Import Lib.

(** The solver has one way to fail. *)
Lemma secant_loop_raises (func : R -> R) (n : nat) :
  forall p0 q0 p1 q1 x,
    secant_loop func n p0 q0 p1 q1 = Raise x -> x = RuntimeError.
Proof.
  induction n as [| n IH]; intros p0 q0 p1 q1 x H.
  - cbn in H. now injection H as <-.
  - rewrite secant_loop_S in H.
    destruct (Req_dec_T q1 q0).
    + destruct (Req_dec_T p1 p0); [discriminate | now injection H as <-].
    + destruct (Rle_dec _ _); [discriminate |]. exact (IH _ _ _ _ _ H).
Qed.

Lemma newton_raises (func : R -> R) (x0 : R) (x : exn) :
  newton func x0 = Raise x -> x = RuntimeError.
Proof.
  unfold newton; cbv zeta.
  destruct (Rlt_dec _ _); apply secant_loop_raises.
Qed.

Lemma mapM_raises_first {A B : Type} (g : A -> result B) (l : list A)
  (x : exn) :
  mapM g l = Raise x -> exists a, In a l /\ g a = Raise x.
Proof.
  induction l as [| a l IH]; cbn [mapM bind]; [discriminate |].
  destruct (g a) as [b | y] eqn:Ha; cbn [bind].
  - destruct (mapM g l) as [bs | y]; cbn [bind]; [discriminate |].
    intros H. destruct (IH H) as (a' & Hin & Ha').
    exists a'; split; [right; exact Hin | exact Ha'].
  - intros H. exists a; split; [left; reflexivity | congruence].
Qed.

End Exceptions.

(** X1: The exceptions of [get_RVs], in the order of its statements: a
    negative [NT] is the [ValueError] of [np.linspace]; then [T = 0] makes
    the call raise (which exception depends on the kind of zero [T] is);
    then an empty grid ([NT = 0]) is the [ValueError] of [np.interp]; with
    [NT >= 1] and [T <> 0] the only exception left is the [RuntimeError]
    of a root solve that does not converge, at one of the grid's mean
    anomalies. *)
Theorem get_RVs_exceptions (K T t0 w e a VZ : R) (NT : Z) (ts : list R) :
  ((NT < 0)%Z -> get_RVs K T t0 w e a VZ NT ts = Raise ValueError)
  /\ ((0 <= NT)%Z -> T = 0 ->
      exists x, get_RVs K T t0 w e a VZ NT ts = Raise x)
  /\ (NT = 0%Z -> T <> 0 -> get_RVs K T t0 w e a VZ NT ts = Raise ValueError)
  /\ ((1 <= NT)%Z -> T <> 0 ->
      forall x, get_RVs K T t0 w e a VZ NT ts = Raise x ->
                x = RuntimeError
                /\ exists Mk, In Mk (mean_anomalies T t0 NT)
                              /\ solve_kepler e Mk = Raise RuntimeError).
Proof.
  split; [| split; [| split]].
  - intros Hneg. unfold get_RVs.
    now rewrite (linspace_negative _ _ _ Hneg).
  - intros Hnn HT. exists ZeroDivisionError. unfold get_RVs.
    destruct (linspace_returns t0 (t0 + T) NT Hnn) as [t ->].
    cbn [bind]. now rewrite HT, py_div_zero.
  - intros -> HT. unfold get_RVs. cbn [Lib.linspace Z.ltb Z.compare Z.to_nat].
    cbn [bind]. rewrite (py_div_nonzero _ _ HT). cbn [bind map mapM].
    unfold Lib.interp. destruct (Req_dec_T T 0); [contradiction |].
    reflexivity.
  - intros Hpos HT x Hx.
    destruct (linspace_returns t0 (t0 + T) NT) as [t Ht]; [lia |].
    destruct (linspace_length _ _ _ _ Ht) as [_ Hlen].
    rewrite (get_RVs_steps K T t0 w e a VZ NT ts t Ht HT) in Hx.
    destruct (mapM (solve_kepler e) (mean_anomalies T t0 NT)) as [E | y] eqn:HE;
      cbn [bind] in Hx.
    + exfalso.
      destruct (interp_returns ts t (map (grid_velocity K w e VZ) E) T HT)
        as (RVs & HRVs & _).
      * rewrite length_map, (mapM_ok_length _ _ _ HE).
        unfold mean_anomalies. rewrite Ht, length_map. reflexivity.
      * intros ->. cbn [length] in Hlen. lia.
      * rewrite HRVs in Hx. discriminate.
    + injection Hx as <-.
      destruct (mapM_raises_first _ _ _ HE) as (Mk & Hin & HMk).
      assert (y = RuntimeError) as -> by exact (newton_raises _ _ _ HMk).
      split; [reflexivity |]. exists Mk; split; assumption.
Qed.

Lemma get_RVs_exceptions_at_samples :
  get_RVs 1 1 0 0 0 1 0 (-1) [0] = Raise ValueError
  /\ (exists x, get_RVs 1 0 0 0 0 1 0 2 [0] = Raise x)
  /\ get_RVs 1 1 0 0 0 1 0 0 [0] = Raise ValueError.
Proof.
  split; [| split].
  - destruct (get_RVs_exceptions 1 1 0 0 0 1 0 (-1) [0]) as (H & _).
    apply H. lia.
  - destruct (get_RVs_exceptions 1 0 0 0 0 1 0 2 [0]) as (_ & H & _).
    apply H; [lia | reflexivity].
  - destruct (get_RVs_exceptions 1 1 0 0 0 1 0 0 [0]) as (_ & _ & H & _).
    apply H; [reflexivity | lra].
Defined.

(** ** The velocity scale *)

Section Rescaling.

Import Lib.

Variables c k : R.

(** The change of scale on the ordinate of a sample point. *)
Let on_pt (p : R * npfloat) : R * npfloat := (fst p, rescale c k (snd p)).

Lemma combine_rescale (xp : list R) (fp : list npfloat) :
  combine xp (map (rescale c k) fp) = map on_pt (combine xp fp).
Proof.
  revert fp. induction xp as [| u xp IH]; intros [| v fp]; cbn; try reflexivity.
  now rewrite IH.
Qed.

Lemma insert_pt_rescale (p : R * npfloat) (l : list (R * npfloat)) :
  insert_pt (on_pt p) (map on_pt l) = map on_pt (insert_pt p l).
Proof.
  induction l as [| q l IH]; cbn [map insert_pt]; [reflexivity |].
  cbn [on_pt fst]. destruct (Rle_dec (fst p) (fst q)); [reflexivity |].
  cbn [map]. now rewrite <- IH.
Qed.

Lemma sort_pts_rescale (l : list (R * npfloat)) :
  sort_pts (map on_pt l) = map on_pt (sort_pts l).
Proof.
  induction l as [| p l IH]; cbn [map sort_pts]; [reflexivity |].
  now rewrite IH, insert_pt_rescale.
Qed.

Lemma last_rescale (l : list (R * npfloat)) (d : R * npfloat) :
  last (map on_pt l) (on_pt d) = on_pt (last l d).
Proof.
  induction l as [| p l IH]; [reflexivity |].
  cbn [map last]. destruct l as [| q l]; [reflexivity | exact IH].
Qed.

Lemma wrap_pts_rescale (l : list (R * npfloat)) (period : R) :
  wrap_pts (map on_pt l) period = map on_pt (wrap_pts l period).
Proof.
  destruct l as [| first l]; [reflexivity |].
  change (map on_pt (first :: l)) with (on_pt first :: map on_pt l) at 1.
  unfold wrap_pts.
  change (on_pt first :: map on_pt l) with (map on_pt (first :: l)).
  rewrite last_rescale. cbn [map]. rewrite map_app. reflexivity.
Qed.

(** Linear interpolation commutes with the change of scale. *)
Lemma lin_rescale (p q : R * npfloat) (x : R) :
  lin (on_pt p) (on_pt q) x = rescale c k (lin p q x).
Proof.
  unfold lin, on_pt, rescale, lift1. cbn [fst snd].
  destruct (snd p) as [y0 |], (snd q) as [y1 |]; cbn [option_map];
    try reflexivity.
  f_equal. unfold Rdiv. ring.
Qed.

Lemma interp_from_rescale (x : R) (p : R * npfloat)
  (rest : list (R * npfloat)) :
  interp_from x (on_pt p) (map on_pt rest)
  = rescale c k (interp_from x p rest).
Proof.
  revert p. induction rest as [| q rest IH]; intros p; cbn [map interp_from].
  - reflexivity.
  - cbn [on_pt fst]. destruct (Rle_dec (fst q) x); [apply IH |].
    destruct (Req_dec_T (fst p) x); [reflexivity | apply lin_rescale].
Qed.

Lemma interp1_rescale (pts : list (R * npfloat)) (x : R) :
  interp1 (map on_pt pts) x = rescale c k (interp1 pts x).
Proof.
  destruct pts as [| p rest]; [reflexivity |].
  cbn [map interp1]. cbn [on_pt fst].
  destruct (Rlt_dec x (fst p)); [reflexivity | apply interp_from_rescale].
Qed.

(** So does the whole periodic interpolation. *)
Lemma interp_rescale (x xp : list R) (fp : list npfloat) (T : R) :
  interp x xp (map (rescale c k) fp) T
  = (r <- interp x xp fp T ;; Ok (map (rescale c k) r)).
Proof.
  unfold interp.
  destruct (Req_dec_T T 0); [reflexivity |].
  rewrite length_map. destruct (negb _); [reflexivity |]. cbv zeta.
  rewrite combine_rescale, sort_pts_rescale, wrap_pts_rescale.
  destruct (wrap_pts _ _) as [| p pts]; [reflexivity |].
  cbn [bind map]. f_equal. rewrite !map_map.
  apply map_ext; intros v.
  exact (interp1_rescale (p :: pts) _).
Qed.

End Rescaling.

(** The velocity of [vr] is the unit curve ([VZ = 0], [K = 1]) rescaled. *)
Lemma vr_rescale (VZ K w f e : R) : vr VZ K w f e = VZ + K * vr 0 1 w f e.
Proof. unfold vr; cbv zeta. ring. Qed.

(** X3: [VZ] is an additive offset and [K] a scale factor of the whole output:
    the result for [(K, VZ)] is the result for [K = 1], [VZ = 0] mapped
    through [u |-> VZ + K * u]; the two calls raise together. *)
Theorem get_RVs_offset_and_scale
  (K T t0 w e a VZ : R) (NT : Z) (ts : list R) :
  get_RVs K T t0 w e a VZ NT ts
  = (r <- get_RVs 1 T t0 w e a 0 NT ts ;; Ok (map (rescale VZ K) r)).
Proof.
  unfold get_RVs.
  destruct (Lib.linspace t0 (t0 + T) NT) as [t | x]; [| reflexivity].
  cbn [bind]. destruct (Lib.py_div (2 * PI) T) as [c | x]; [| reflexivity].
  cbn [bind]. destruct (mapM _ _) as [E | x]; [| reflexivity].
  cbn [bind]. rewrite <- interp_rescale. f_equal.
  rewrite !map_map. apply map_ext; intros Ek.
  destruct (true_anomaly e Ek) as [fk |]; [| reflexivity].
  cbn [lift1 option_map rescale]. f_equal. apply vr_rescale.
Qed.

(** ** What interpolation cannot leave *)

Section Closed.

Import Lib.

(** A property of velocities that linear interpolation strictly between
    two abscissae keeps. *)
Variable P : npfloat -> Prop.
Hypothesis P_lin :
  forall (p q : R * npfloat) (x : R),
    fst p < x < fst q -> P (snd p) -> P (snd q) -> P (lin p q x).

Let good (pts : list (R * npfloat)) : Prop := Forall (fun p => P (snd p)) pts.

Lemma insert_pt_closed (p : R * npfloat) (l : list (R * npfloat)) :
  P (snd p) -> good l -> good (insert_pt p l).
Proof.
  intros Hp Hl. induction Hl as [| q l Hq Hl IH]; cbn [insert_pt].
  - repeat constructor; exact Hp.
  - destruct (Rle_dec (fst p) (fst q)).
    + repeat constructor; assumption.
    + constructor; assumption.
Qed.

Lemma sort_pts_closed (l : list (R * npfloat)) : good l -> good (sort_pts l).
Proof.
  induction 1 as [| p l Hp Hl IH]; cbn [sort_pts].
  - constructor.
  - apply insert_pt_closed; assumption.
Qed.

Lemma last_closed (l : list (R * npfloat)) (d : R * npfloat) :
  good l -> P (snd d) -> P (snd (last l d)).
Proof.
  intros Hl Hd. induction Hl as [| p l Hp Hl IH]; [exact Hd |].
  cbn [last]. destruct l; [exact Hp | exact IH].
Qed.

Lemma wrap_pts_closed (l : list (R * npfloat)) (period : R) :
  good l -> good (wrap_pts l period).
Proof.
  intros Hl. destruct l as [| first l]; [constructor |].
  unfold wrap_pts. cbv zeta.
  assert (Hfirst : P (snd first)) by now inversion Hl.
  constructor; [apply last_closed; assumption |].
  apply Forall_app; split; [exact Hl |].
  constructor; [exact Hfirst | constructor].
Qed.

(** The search keeps the query at or above the current sample point, so
    it interpolates strictly inside an interval only. *)
Lemma interp_from_closed (x : R) (p : R * npfloat)
  (rest : list (R * npfloat)) :
  fst p <= x -> P (snd p) -> good rest -> P (interp_from x p rest).
Proof.
  intros Hx Hp Hrest. revert p Hx Hp.
  induction Hrest as [| q rest Hq Hrest IH]; intros p Hx Hp;
    cbn [interp_from].
  - exact Hp.
  - destruct (Rle_dec (fst q) x) as [Hle | Hgt]; [apply IH; assumption |].
    destruct (Req_dec_T (fst p) x) as [Heq | Hne]; [exact Hp |].
    apply P_lin; [lra | assumption | assumption].
Qed.

Lemma interp1_closed (pts : list (R * npfloat)) (x : R) :
  pts <> [] -> good pts -> P (interp1 pts x).
Proof.
  intros Hne Hpts. destruct pts as [| p rest]; [contradiction |].
  inversion Hpts as [| p' rest' Hp Hrest]. cbn [interp1].
  destruct (Rlt_dec x (fst p)) as [Hlt | Hge]; [exact Hp |].
  apply interp_from_closed; [lra | assumption | assumption].
Qed.

Lemma interp_closed (x xp : list R) (fp r : list npfloat) (T : R) :
  Forall P fp -> interp x xp fp T = Ok r -> Forall P r.
Proof.
  intros Hfp. unfold interp.
  destruct (Req_dec_T T 0); [discriminate |].
  destruct (negb _); [discriminate |]. cbv zeta.
  set (pts := sort_pts (combine (map (fun v => np_mod v (Rabs T)) xp) fp)).
  assert (Hgood : good (wrap_pts pts (Rabs T))).
  { apply wrap_pts_closed, sort_pts_closed, Forall_forall.
    intros [u v] Hin. apply in_combine_r in Hin. cbn [snd].
    exact (proj1 (Forall_forall _ _) Hfp v Hin). }
  destruct (wrap_pts pts (Rabs T)) as [| p rest] eqn:Hw; [discriminate |].
  intros H; injection H as <-.
  apply Forall_forall. intros v Hv. apply in_map_iff in Hv.
  destruct Hv as (u & <- & _).
  apply interp1_closed; [discriminate | exact Hgood].
Qed.

End Closed.

Section Bounds.

Import Lib.

Variables K w e VZ : R.

(** The amplitude of the curve. *)
Let amplitude : R := Rabs K * (1 + Rabs e).

Lemma Rabs_le_bounds (x b : R) : Rabs x <= b -> - b <= x <= b.
Proof.
  unfold Rabs. destruct (Rcase_abs x); lra.
Qed.

(** Interpolating between two velocities within the amplitude stays
    within it. *)
Lemma lin_within (p q : R * npfloat) (x : R) :
  fst p < x < fst q ->
  within VZ amplitude (snd p) -> within VZ amplitude (snd q) ->
  within VZ amplitude (lin p q x).
Proof.
  intros Hx (y0 & Hy0 & Hb0) (y1 & Hy1 & Hb1). unfold lin.
  rewrite Hy0, Hy1. eexists; split; [reflexivity |].
  apply Rabs_le_bounds in Hb0. apply Rabs_le_bounds in Hb1. apply Rabs_le.
  set (u := (x - fst p) / (fst q - fst p)).
  assert (Hu : 0 < u < 1).
  { unfold u. split.
    - apply Rdiv_lt_0_compat; lra.
    - apply (Rmult_lt_reg_r (fst q - fst p)); [lra |].
      unfold Rdiv. rewrite Rmult_assoc, Rinv_l by lra. lra. }
  replace ((y1 - y0) / (fst q - fst p) * (x - fst p) + y0 - VZ)
    with ((1 - u) * (y0 - VZ) + u * (y1 - VZ))
    by (unfold u; field; lra).
  split; nra.
Qed.

(** A grid velocity is a number within the amplitude of [VZ] as long as
    both square roots exist. *)
Lemma grid_velocity_within (E : R) :
  -1 <= e <= 1 -> within VZ amplitude (grid_velocity K w e VZ E).
Proof.
  intros He. unfold grid_velocity, true_anomaly, np_sqrt.
  destruct (Rlt_dec (1 + e) 0); [lra |].
  destruct (Rlt_dec (1 - e) 0); [lra |].
  cbn [lift1 option_map]. eexists; split; [reflexivity |].
  unfold vr, amplitude; cbv zeta.
  match goal with
  | |- Rabs (VZ + K * (cos ?u + e * cos ?v) - VZ) <= _ =>
      replace (VZ + K * (cos u + e * cos v) - VZ)
        with (K * (cos u + e * cos v)) by ring;
      pose proof (COS_bound u) as Hu; pose proof (COS_bound v) as Hv
  end.
  rewrite Rabs_mult. apply Rmult_le_compat_l; [apply Rabs_pos |].
  eapply Rle_trans; [apply Rabs_triang |].
  rewrite Rabs_mult.
  apply Rplus_le_compat.
  - apply Rabs_le; lra.
  - rewrite <- (Rmult_1_r (Rabs e)) at 2.
    apply Rmult_le_compat_l; [apply Rabs_pos | apply Rabs_le; lra].
Qed.

End Bounds.

(** X4: For an eccentricity in [[-1, 1]] every entry of what [get_RVs] returns
    is a number (no [nan]) within [|K| * (1 + |e|)] of the systemic
    velocity [VZ]: interpolation does not leave the range of the grid. *)
Theorem get_RVs_within_amplitude
  (K T t0 w e a VZ : R) (NT : Z) (ts : list R) (RVs : list npfloat) :
  -1 <= e <= 1 ->
  get_RVs K T t0 w e a VZ NT ts = Ok RVs ->
  Forall (within VZ (Rabs K * (1 + Rabs e))) RVs.
Proof.
  intros He. unfold get_RVs.
  destruct (Lib.linspace t0 (t0 + T) NT) as [t | x]; [| discriminate].
  cbn [bind]. destruct (Lib.py_div (2 * PI) T) as [c | x]; [| discriminate].
  cbn [bind]. destruct (mapM _ _) as [E | x]; [| discriminate].
  cbn [bind]. apply interp_closed.
  - intros p q x. apply lin_within.
  - rewrite map_map. apply Forall_forall. intros v Hv.
    apply in_map_iff in Hv. destruct Hv as (Ek & <- & _).
    exact (grid_velocity_within K w e VZ Ek He).
Qed.

Lemma get_RVs_within_amplitude_one_point :
  Forall (within 0 (Rabs 1 * (1 + Rabs (1 / 2))))
         (map (fun _ => grid_velocity 1 0 (1 / 2) 0 0) [0; 1 / 4]).
Proof.
  apply (get_RVs_within_amplitude 1 1 0 0 (1 / 2) 1 0 1 [0; 1 / 4]); [lra |].
  apply get_RVs_one_sample; [lra |].
  apply off_root_le_1; [apply eps_range | lra].
Defined.

(** ** Whole periods *)

Section WholePeriods.

Import Lib.

(** The remainder does not see a shift by any whole number of periods. *)
Lemma np_mod_periods (x T : R) (k : Z) :
  T <> 0 -> np_mod (x + IZR k * T) (Rabs T) = np_mod x (Rabs T).
Proof.
  intros HT. unfold np_mod.
  destruct (Rcase_abs T) as [Hneg | Hpos].
  - rewrite (Rabs_left T Hneg).
    replace ((x + IZR k * T) / - T) with (x / - T + IZR (- k))
      by (rewrite opp_IZR; field; lra).
    rewrite Zfloor_addz, plus_IZR, opp_IZR. lra.
  - rewrite (Rabs_right T Hpos).
    replace ((x + IZR k * T) / T) with (x / T + IZR k) by (field; lra).
    rewrite Zfloor_addz, plus_IZR. lra.
Qed.

Lemma interp_periods (x xp : list R) (fp : list npfloat) (T : R) (k : Z) :
  interp (map (fun v => v + IZR k * T) x) xp fp T = interp x xp fp T.
Proof.
  unfold interp.
  destruct (Req_dec_T T 0) as [HT | HT]; [reflexivity |].
  destruct (negb _); [reflexivity |]. cbv zeta.
  destruct (wrap_pts _ _) as [| p pts]; [reflexivity |].
  rewrite !map_map. f_equal.
  apply map_ext; intros v. rewrite (np_mod_periods v T k HT). reflexivity.
Qed.

(** The grid moved by [d] is the grid of [np.linspace] moved by [d]. *)
Lemma linspace_shift (start stop d : R) (num : Z) :
  linspace (start + d) (stop + d) num
  = (t <- linspace start stop num ;; Ok (map (fun v => v + d) t)).
Proof.
  unfold linspace. destruct (num <? 0)%Z; [reflexivity |].
  destruct (Z.to_nat num) as [| [| n]]; [reflexivity | reflexivity |].
  cbn [bind]. f_equal. rewrite map_map. apply map_ext; intros i.
  destruct (Nat.eqb i (S n)); [reflexivity |].
  unfold Rdiv. ring.
Qed.

(** Sample abscissae moved by one period give the same interpolation. *)
Lemma interp_grid_shift (x xp : list R) (fp : list npfloat) (T : R) :
  interp x (map (fun v => v + T) xp) fp T = interp x xp fp T.
Proof.
  unfold interp.
  destruct (Req_dec_T T 0) as [HT | HT]; [reflexivity |].
  rewrite length_map. destruct (negb _); [reflexivity |]. cbv zeta.
  rewrite map_map.
  rewrite (map_ext (fun v => np_mod (v + T) (Rabs T))
                   (fun v => np_mod v (Rabs T)));
    [reflexivity |].
  intros v. apply np_mod_shift; exact HT.
Qed.

End WholePeriods.

(** X5: Query times moved by any whole number [k] of periods, forwards or
    backwards, get the same answers. *)
Theorem get_RVs_whole_periods
  (K T t0 w e a VZ : R) (NT : Z) (ts : list R) (k : Z) :
  get_RVs K T t0 w e a VZ NT (map (fun v => v + IZR k * T) ts)
  = get_RVs K T t0 w e a VZ NT ts.
Proof.
  unfold get_RVs.
  destruct (Lib.linspace t0 (t0 + T) NT) as [t | x]; [| reflexivity].
  cbn [bind]. destruct (Lib.py_div (2 * PI) T) as [c | x]; [| reflexivity].
  cbn [bind]. destruct (mapM _ _) as [E | x]; [| reflexivity].
  cbn [bind]. apply interp_periods.
Qed.

(** X6: The epoch of periastron matters modulo the period only: [t0 + T] gives
    the same mean anomalies on a grid one period later, hence the same
    result as [t0]. *)
Theorem get_RVs_epoch_period
  (K T t0 w e a VZ : R) (NT : Z) (ts : list R) :
  get_RVs K T (t0 + T) w e a VZ NT ts = get_RVs K T t0 w e a VZ NT ts.
Proof.
  unfold get_RVs. rewrite linspace_shift.
  destruct (Lib.linspace t0 (t0 + T) NT) as [t | x]; [| reflexivity].
  cbn [bind]. destruct (Lib.py_div (2 * PI) T) as [c | x]; [| reflexivity].
  cbn [bind]. rewrite map_map.
  rewrite (map_ext (fun tk => c * (tk + T - (t0 + T)))
                   (fun tk => c * (tk - t0)))
    by (intros tk; f_equal; ring).
  destruct (mapM _ _) as [E | x]; [| reflexivity].
  cbn [bind]. apply interp_grid_shift.
Qed.

(** ** The argument of periapsis *)

Lemma vr_full_turn (VZ K w f e : R) :
  vr VZ K (w + 360) f e = vr VZ K w f e.
Proof.
  unfold vr; cbv zeta.
  replace ((w + 360) * (PI / 180)) with (w * (PI / 180) + 2 * PI) by field.
  replace (w * (PI / 180) + 2 * PI + f) with (w * (PI / 180) + f + 2 * PI)
    by ring.
  rewrite !cos_plus, sin_2PI, cos_2PI. ring.
Qed.

(** X7: [w] is an angle in degrees: a full turn of 360 added to it changes
    neither the velocities nor whether the call raises. *)
Theorem get_RVs_periapsis_full_turn
  (K T t0 w e a VZ : R) (NT : Z) (ts : list R) :
  get_RVs K T t0 (w + 360) e a VZ NT ts = get_RVs K T t0 w e a VZ NT ts.
Proof.
  unfold get_RVs.
  destruct (Lib.linspace t0 (t0 + T) NT) as [t | x]; [| reflexivity].
  cbn [bind]. destruct (Lib.py_div (2 * PI) T) as [c | x]; [| reflexivity].
  cbn [bind]. destruct (mapM _ _) as [E | x]; [| reflexivity].
  cbn [bind]. f_equal. apply map_ext; intros fk.
  destruct fk as [fk |]; [| reflexivity].
  cbn [lift1 option_map]. f_equal. apply vr_full_turn.
Qed.

(** ** The circular orbit on the whole grid *)

Lemma mapM_fixed {A : Type} (g : A -> result A) (l : list A) :
  (forall a, In a l -> g a = Ok a) -> mapM g l = Ok l.
Proof.
  induction l as [| a l IH]; intros Hall; cbn [mapM bind]; [reflexivity |].
  rewrite (Hall a (or_introl eq_refl)). cbn [bind].
  rewrite IH by (intros a' Ha'; apply Hall; right; exact Ha').
  reflexivity.
Qed.

(** X8: At [e = 0] no root solve fails and the grid velocities are the
    sinusoid [VZ + K * cos (w_rad + 2 pi (t - t0) / T)] sampled on the
    grid: [get_RVs] is the periodic interpolation of these samples, and it
    returns as soon as the grid has a point. *)
Theorem get_RVs_circular
  (K T t0 w a VZ : R) (NT : Z) (ts t : list R) :
  T <> 0 -> Lib.linspace t0 (t0 + T) NT = Ok t ->
  get_RVs K T t0 w 0 a VZ NT ts
  = Lib.interp ts t
      (map (fun tk => Some (VZ + K * cos (w * PI / 180
                                          + 2 * PI / T * (tk - t0)))) t) T
  /\ ((1 <= NT)%Z ->
      exists RVs, get_RVs K T t0 w 0 a VZ NT ts = Ok RVs
                  /\ length RVs = length ts).
Proof.
  intros HT Ht.
  assert (Heq : get_RVs K T t0 w 0 a VZ NT ts
                = Lib.interp ts t
                    (map (fun tk => Some (VZ + K * cos (w * PI / 180
                                            + 2 * PI / T * (tk - t0)))) t) T).
  { rewrite (get_RVs_steps K T t0 w 0 a VZ NT ts t Ht HT).
    rewrite mapM_fixed by (intros Mk _; apply solve_kepler_circular).
    cbn [bind]. f_equal.
    assert (Hgrid : forall Mk, In Mk (mean_anomalies T t0 NT) ->
              grid_velocity K w 0 VZ Mk
              = Some (VZ + K * cos (w * PI / 180 + Mk))).
    { intros Mk HMk. unfold grid_velocity.
      rewrite true_anomaly_circular_id.
      - cbn [lift1 option_map]. unfold vr; cbv zeta.
        replace (w * (PI / 180)) with (w * PI / 180) by field.
        f_equal. ring.
      - pose proof (mean_anomalies_range T t0 NT Mk HT HMk).
        pose proof PI_RGT_0. lra. }
    rewrite (map_ext_in _ _ _ Hgrid).
    unfold mean_anomalies. rewrite Ht, map_map. reflexivity. }
  split; [exact Heq |].
  intros HNT. rewrite Heq.
  destruct (linspace_length _ _ _ _ Ht) as [_ Hlen].
  apply interp_returns; [exact HT | now rewrite length_map |].
  intros ->. cbn [length] in Hlen. lia.
Qed.

Lemma get_RVs_circular_two_points :
  get_RVs 1 1 0 0 0 1 0 2 [0]
  = Lib.interp [0] [0; 0 + 1]
      (map (fun tk => Some (0 + 1 * cos (0 * PI / 180
                                         + 2 * PI / 1 * (tk - 0))))
           [0; 0 + 1]) 1
  /\ ((1 <= 2)%Z ->
      exists RVs, get_RVs 1 1 0 0 0 1 0 2 [0] = Ok RVs
                  /\ length RVs = length [0]).
Proof.
  apply (get_RVs_circular 1 1 0 0 1 0 2 [0] [0; 0 + 1]);
    [lra | apply linspace_two].
Defined.

(** ** The root of the Kepler equation *)

Section KeplerRoot.

Variables e M : R.
Hypothesis e_range : 0 <= e < 1.

Let r (E : R) : R := kepler E e M.

Lemma kepler_continuity : continuity r.
Proof.
  intros x. apply derivable_continuous_pt.
  exists (1 - e * cos x). apply (kepler_derivative e M x).
Qed.

(** Below [e = 1] the residual grows with [E], at a rate of at least
    [1 - e]. *)
Lemma kepler_growth (E1 E2 : R) :
  E1 <= E2 -> (1 - e) * (E2 - E1) <= r E2 - r E1.
Proof.
  intros [Hlt | ->]; [| lra].
  destruct (mean_value r (fun E => 1 - e * cos E)
              (kepler_derivative e M) E1 E2) as [c Hc]; [lra |].
  rewrite Hc. pose proof (COS_bound c).
  apply Rmult_le_compat_r; [lra |].
  assert (e * cos c <= e * 1) by (apply Rmult_le_compat_l; lra). lra.
Qed.

Lemma kepler_root_unique (E1 E2 : R) : r E1 = 0 -> r E2 = 0 -> E1 = E2.
Proof.
  intros H1 H2. destruct (Rle_lt_dec E1 E2) as [Hle | Hlt].
  - pose proof (kepler_growth E1 E2 Hle). nra.
  - pose proof (kepler_growth E2 E1 (Rlt_le _ _ Hlt)). nra.
Qed.

Lemma kepler_root_exists : exists E, r E = 0 /\ Rabs (E - M) <= e.
Proof.
  destruct (IVT r (M - 1) (M + 1) kepler_continuity) as (E & _ & HE).
  - lra.
  - unfold r, kepler. pose proof (SIN_bound (M - 1)). nra.
  - unfold r, kepler. pose proof (SIN_bound (M + 1)). nra.
  - exists E; split; [exact HE |].
    unfold r, kepler in HE. replace (E - M) with (e * sin E) by lra.
    rewrite Rabs_mult, (Rabs_right e) by lra.
    rewrite <- (Rmult_1_r e) at 2.
    apply Rmult_le_compat_l; [lra |].
    pose proof (SIN_bound E). apply Rabs_le; lra.
Qed.

(** The distance to a root is at most the residual over [1 - e]. *)
Lemma kepler_distance (E Eroot : R) :
  r Eroot = 0 -> (1 - e) * Rabs (E - Eroot) <= Rabs (r E).
Proof.
  intros Hroot. destruct (Rle_lt_dec Eroot E) as [Hle | Hlt].
  - pose proof (kepler_growth Eroot E Hle).
    rewrite (Rabs_right (E - Eroot)) by lra.
    rewrite Rabs_right; nra.
  - pose proof (kepler_growth E Eroot (Rlt_le _ _ Hlt)).
    rewrite (Rabs_left (E - Eroot)) by lra.
    rewrite Rabs_left; nra.
Qed.

End KeplerRoot.

(** X9: For an eccentricity in [[0, 1)] and any mean anomaly [M] the residual
    [kepler] has exactly one root [E], and it lies within [e] of [M]. *)
Theorem kepler_has_one_root (e M : R) :
  0 <= e < 1 ->
  exists E, kepler E e M = 0 /\ Rabs (E - M) <= e
            /\ forall E', kepler E' e M = 0 -> E' = E.
Proof.
  intros He. destruct (kepler_root_exists e M He) as (E & HE & Hnear).
  exists E. split; [exact HE |]. split; [exact Hnear |].
  intros E' HE'. exact (kepler_root_unique e M He E' E HE' HE).
Qed.

Lemma kepler_has_one_root_at_half :
  exists E, kepler E (1 / 2) 1 = 0 /\ Rabs (E - 1) <= 1 / 2
            /\ forall E', kepler E' (1 / 2) 1 = 0 -> E' = E.
Proof.
  apply (kepler_has_one_root (1 / 2) 1). lra.
Defined.

(** X10: For an eccentricity in [[0, 1)] whatever the root solve returns is
    within [2 * e * tol / (1 - e)] of the root of the Kepler equation,
    [tol = 1.48e-8] being the solver's step tolerance. *)
Theorem solve_kepler_accuracy (e M E Eroot : R) :
  0 <= e < 1 ->
  solve_kepler e M = Ok E ->
  kepler Eroot e M = 0 ->
  Rabs (E - Eroot) <= 2 * e * Lib.tol / (1 - e).
Proof.
  intros He Hsolve Hroot.
  pose proof (kepler_distance e M He E Eroot Hroot) as Hdist.
  pose proof (solve_kepler_residual e M E (proj1 He) Hsolve) as Hres.
  apply (Rmult_le_reg_l (1 - e)); [lra |].
  replace ((1 - e) * (2 * e * Lib.tol / (1 - e))) with (2 * e * Lib.tol)
    by (field; lra).
  lra.
Qed.

Lemma solve_kepler_accuracy_at_periastron :
  Rabs (0 - 0) <= 2 * (1 / 2) * Lib.tol / (1 - 1 / 2).
Proof.
  apply (solve_kepler_accuracy (1 / 2) 0 0 0).
  - lra.
  - apply solve_kepler_0. apply off_root_le_1; [apply eps_range | lra].
  - unfold kepler. rewrite sin_0. ring.
Defined.

(** ** A full turn of the eccentric anomaly *)

Section FullTurn.

Import Lib.

(** The angle of the opposite point is half a turn away, or the same
    when the point is the origin. *)
Lemma arctan2_antipode (y x : R) :
  arctan2 (- y) (- x) = arctan2 y x + PI
  \/ arctan2 (- y) (- x) = arctan2 y x - PI
  \/ arctan2 (- y) (- x) = arctan2 y x.
Proof.
  assert (Hq : x <> 0 -> - y / - x = y / x) by (intros; field; assumption).
  unfold arctan2.
  repeat match goal with
         | |- context [Rlt_dec ?u ?v] => destruct (Rlt_dec u v)
         | |- context [Rle_dec ?u ?v] => destruct (Rle_dec u v)
         end;
    try lra;
    try (rewrite Hq by lra);
    first [left; lra | right; left; lra | right; right; lra].
Qed.

Lemma true_anomaly_full_turn (e E : R) :
  match true_anomaly e (E + 2 * PI), true_anomaly e E with
  | Some f', Some f => f' = f + 2 * PI \/ f' = f - 2 * PI \/ f' = f
  | None, None => True
  | _, _ => False
  end.
Proof.
  unfold true_anomaly.
  destruct (np_sqrt (1 + e)) as [sp |]; [| exact I].
  destruct (np_sqrt (1 - e)) as [sm |]; [| exact I].
  replace ((E + 2 * PI) / 2) with (E / 2 + PI) by field.
  rewrite neg_sin, neg_cos.
  replace (sp * - sin (E / 2)) with (- (sp * sin (E / 2))) by ring.
  replace (sm * - cos (E / 2)) with (- (sm * cos (E / 2))) by ring.
  destruct (arctan2_antipode (sp * sin (E / 2)) (sm * cos (E / 2)))
    as [H | [H | H]]; rewrite H; [left | right; left | right; right]; ring.
Qed.

End FullTurn.

Lemma grid_velocity_turn (K w e VZ E : R) :
  grid_velocity K w e VZ (E + 2 * PI) = grid_velocity K w e VZ E.
Proof.
  unfold grid_velocity.
  pose proof (true_anomaly_full_turn e E) as H.
  destruct (true_anomaly e (E + 2 * PI)) as [f' |],
           (true_anomaly e E) as [f |]; try contradiction; [| reflexivity].
  cbn [lift1 option_map]. f_equal. unfold vr; cbv zeta.
  destruct H as [-> | [-> | ->]]; [| | reflexivity].
  - replace (w * (PI / 180) + (f + 2 * PI))
      with (w * (PI / 180) + f + 2 * PI) by ring.
    rewrite (cos_plus _ (2 * PI)), sin_2PI, cos_2PI. ring.
  - replace (w * (PI / 180) + (f - 2 * PI))
      with (w * (PI / 180) + f - 2 * PI) by ring.
    rewrite (cos_minus _ (2 * PI)), sin_2PI, cos_2PI. ring.
Qed.

(** X11: Below [e = 1], two eccentric anomalies a full turn apart give
    the same grid velocity: the true anomaly moves by a full turn or not
    at all, and the cosine of [vr] does not see it.  (At [e = 1] the point
    handed to [np.arctan2] at [E = 0] and [E = 2 pi] is the origin up to
    rounding, where the angle is not determined.) *)
Theorem grid_velocity_full_turn (K w e VZ E : R) :
  e < 1 ->
  grid_velocity K w e VZ (E + 2 * PI) = grid_velocity K w e VZ E.
Proof. intros _. exact (grid_velocity_turn K w e VZ E). Qed.

Lemma grid_velocity_full_turn_at_half :
  grid_velocity 1 0 (1 / 2) 0 (1 + 2 * PI) = grid_velocity 1 0 (1 / 2) 0 1.
Proof.
  apply (grid_velocity_full_turn 1 0 (1 / 2) 0 1). lra.
Defined.

(** ** The exceptions of the adapter *)

Section AdapterExceptions.

Import Lib.

Lemma linspace_raises (start stop : R) (num : Z) (x : exn) :
  linspace start stop num = Raise x -> x = ValueError /\ (num < 0)%Z.
Proof.
  unfold linspace. destruct (Z.ltb_spec num 0) as [Hneg | Hnn].
  - intros H; injection H as <-. split; [reflexivity | exact Hneg].
  - destruct (Z.to_nat num) as [| [| n]]; discriminate.
Qed.

Lemma interp_raises (x xp : list R) (fp : list npfloat) (T : R) (err : exn) :
  interp x xp fp T = Raise err -> err = ValueError.
Proof.
  unfold interp.
  destruct (Req_dec_T T 0); [intros H; now injection H as <- |].
  destruct (negb _); [intros H; now injection H as <- |]. cbv zeta.
  destruct (wrap_pts _ _); [intros H; now injection H as <- | discriminate].
Qed.

End AdapterExceptions.

(** X12: [log_RVs] never raises the [ZeroDivisionError] of [get_RVs], the
    period [np.exp(lnT)] being positive: it raises a [ValueError] and does
    so for [NT <= 0] only, or the [RuntimeError] of a root solve and does
    so for [NT >= 1] only. *)
Theorem log_RVs_exceptions
  (lnK lnT t0 w lne lna VZ : R) (NT : Z) (ts : list R) (x : exn) :
  log_RVs lnK lnT t0 w lne lna VZ NT ts = Raise x ->
  (x = ValueError /\ (NT <= 0)%Z) \/ (x = RuntimeError /\ (1 <= NT)%Z).
Proof.
  unfold log_RVs; cbv zeta. set (T := exp lnT).
  assert (HT : T <> 0) by (pose proof (exp_pos lnT); unfold T; lra).
  destruct (Lib.linspace t0 (t0 + T) NT) as [t | y] eqn:Ht.
  - destruct (linspace_length _ _ _ _ Ht) as [Hnn Hlen].
    rewrite (get_RVs_steps _ T t0 w _ _ VZ NT ts t Ht HT).
    destruct (mapM _ _) as [E | y] eqn:HE; cbn [bind].
    + intros Hx. apply interp_raises in Hx as Herr. left.
      split; [exact Herr |].
      destruct t as [| t1 t']; [cbn [length] in Hlen; lia |].
      exfalso.
      destruct (interp_returns ts (t1 :: t')
                  (map (grid_velocity (exp lnK) w (exp lne) VZ) E) T HT)
        as (RVs & HRVs & _); [| discriminate | congruence].
      rewrite length_map, (mapM_ok_length _ _ _ HE).
      unfold mean_anomalies. rewrite Ht, length_map. reflexivity.
    + intros Hx; injection Hx as <-.
      destruct (mapM_raises_first _ _ _ HE) as (Mk & Hin & HMk).
      right. split; [exact (newton_raises _ _ _ HMk) |].
      unfold mean_anomalies in Hin. rewrite Ht in Hin.
      destruct t as [| t1 t']; [destruct Hin |].
      cbn [length] in Hlen. lia.
  - unfold get_RVs. rewrite Ht. cbn [bind].
    intros Hx; injection Hx as <-.
    destruct (linspace_raises _ _ _ _ Ht) as [-> Hneg].
    left. split; [reflexivity | lia].
Qed.

Lemma log_RVs_exceptions_negative_grid :
  (ValueError = ValueError /\ (-1 <= 0)%Z)
  \/ (ValueError = RuntimeError /\ (1 <= -1)%Z).
Proof.
  apply (log_RVs_exceptions 0 0 0 0 0 0 0 (-1) [0] ValueError).
  reflexivity.
Defined.

(** ** The orbital parameter K *)

Section OrbitalParameter.

Variables m1 m2 n a I e : R.

(** X13: Scaling both masses by the same factor leaves [K] as it is, the
    exception for a zero total mass included: [K] reads the masses through
    the ratio [m2 / (m1 + m2)] only. *)
Theorem K_mass_ratio (c : R) :
  c <> 0 -> K (c * m1) (c * m2) n a I e = K m1 m2 n a I e.
Proof.
  intros Hc. unfold K, Lib.py_div.
  destruct (Req_dec_T (m1 + m2) 0) as [Hz | Hnz];
    destruct (Req_dec_T (c * m1 + c * m2) 0) as [Hz' | Hnz'].
  - reflexivity.
  - exfalso. apply Hnz'. replace (c * m1 + c * m2) with (c * (m1 + m2)) by ring.
    rewrite Hz. ring.
  - exfalso. apply Hnz.
    replace (c * m1 + c * m2) with (c * (m1 + m2)) in Hz' by ring.
    destruct (Rmult_integral _ _ Hz'); [contradiction | assumption].
  - cbn [bind].
    replace (c * m2 / (c * m1 + c * m2)) with (m2 / (m1 + m2))
      by (field; split; assumption || (intros Hs; apply Hnz'; rewrite <- Hs; ring)).
    reflexivity.
Qed.

End OrbitalParameter.

Lemma K_mass_ratio_doubled : K (2 * 1) (2 * 3) 1 1 1 0 = K 1 3 1 1 1 0.
Proof.
  apply (K_mass_ratio 1 3 1 1 1 0 2). lra.
Defined.

(** ** The interpolation at the abscissa of a sample point *)

Section Hits.

Import Lib.

(** Sample points in the order of their abscissae. *)
Let le_fst (p q : R * npfloat) : Prop := fst p <= fst q.

Lemma np_mod_range (v p : R) : 0 < p -> 0 <= np_mod v p < p.
Proof.
  intros Hp. unfold np_mod.
  pose proof (Zfloor_bound (v / p)) as [Hlo Hhi].
  assert (Hv : v = v / p * p) by (field; lra).
  split.
  - assert (IZR (Zfloor (v / p)) * p <= v / p * p)
      by (apply Rmult_le_compat_r; lra). lra.
  - assert (v / p * p < (IZR (Zfloor (v / p)) + 1) * p)
      by (apply Rmult_lt_compat_r; lra). lra.
Qed.

Lemma insert_pt_In (p q : R * npfloat) (l : list (R * npfloat)) :
  In q (insert_pt p l) <-> q = p \/ In q l.
Proof.
  induction l as [| a l IH]; cbn [insert_pt].
  - cbn. intuition congruence.
  - destruct (Rle_dec (fst p) (fst a)); cbn [In].
    + intuition congruence.
    + rewrite IH. intuition congruence.
Qed.

Lemma sort_pts_In (q : R * npfloat) (l : list (R * npfloat)) :
  In q (sort_pts l) <-> In q l.
Proof.
  induction l as [| a l IH]; cbn [sort_pts]; [reflexivity |].
  rewrite insert_pt_In, IH. cbn [In]. intuition congruence.
Qed.

Lemma insert_pt_sorted (p : R * npfloat) (l : list (R * npfloat)) :
  StronglySorted le_fst l -> StronglySorted le_fst (insert_pt p l).
Proof.
  induction 1 as [| a l Hl IH Ha]; cbn [insert_pt].
  - constructor; constructor.
  - destruct (Rle_dec (fst p) (fst a)) as [Hle | Hgt].
    + constructor; [constructor; assumption |].
      constructor; [exact Hle |].
      apply Forall_forall. intros q Hq.
      pose proof (proj1 (Forall_forall _ _) Ha q Hq) as Haq.
      unfold le_fst in *. lra.
    + constructor; [exact IH |].
      apply Forall_forall. intros q Hq. apply insert_pt_In in Hq.
      destruct Hq as [-> | Hq].
      * unfold le_fst. lra.
      * exact (proj1 (Forall_forall _ _) Ha q Hq).
Qed.

Lemma sort_pts_sorted (l : list (R * npfloat)) :
  StronglySorted le_fst (sort_pts l).
Proof.
  induction l as [| a l IH]; cbn [sort_pts]; [constructor |].
  apply insert_pt_sorted; exact IH.
Qed.

Lemma sorted_snoc (l : list (R * npfloat)) (z : R * npfloat) :
  StronglySorted le_fst l -> Forall (fun q => le_fst q z) l ->
  StronglySorted le_fst (l ++ [z]).
Proof.
  induction 1 as [| a l Hl IH Ha]; intros Hz; cbn [app].
  - constructor; constructor.
  - inversion Hz as [| a' l' Haz Hlz]; subst.
    constructor; [apply IH; exact Hlz |].
    apply Forall_app; split; [exact Ha | constructor; [exact Haz | constructor]].
Qed.

Variable period : R.
Hypothesis period_pos : 0 < period.

(** Abscissae reduced modulo the period. *)
Let reduced (l : list (R * npfloat)) : Prop :=
  Forall (fun q => 0 <= fst q < period) l.

Lemma last_reduced (l : list (R * npfloat)) (d : R * npfloat) :
  reduced l -> 0 <= fst d < period -> 0 <= fst (last l d) < period.
Proof.
  intros Hl Hd. induction Hl as [| p l Hp Hl IH]; [exact Hd |].
  cbn [last]. destruct l; [exact Hp | exact IH].
Qed.

Lemma wrap_pts_sorted (l : list (R * npfloat)) :
  reduced l -> StronglySorted le_fst l ->
  StronglySorted le_fst (wrap_pts l period).
Proof.
  intros Hred Hsorted. destruct l as [| first l]; [constructor |].
  unfold wrap_pts. cbv zeta.
  assert (Hfirst : 0 <= fst first < period) by now inversion Hred.
  pose proof (last_reduced (first :: l) first Hred Hfirst) as Hlast.
  constructor.
  - apply sorted_snoc; [exact Hsorted |].
    apply Forall_forall. intros q Hq.
    pose proof (proj1 (Forall_forall _ _) Hred q Hq) as Hqr.
    unfold le_fst; cbn [fst]. cbv beta in Hqr. lra.
  - apply Forall_app; split.
    + apply Forall_forall. intros q Hq.
      pose proof (proj1 (Forall_forall _ _) Hred q Hq) as Hqr.
      unfold le_fst; cbn [fst]. cbv beta in Hqr. lra.
    + constructor; [| constructor]. unfold le_fst; cbn [fst]. lra.
Qed.

(** The two added points are outside [[0, period)]. *)
Lemma wrap_pts_reduced_In (l : list (R * npfloat)) (q : R * npfloat) :
  reduced l -> In q (wrap_pts l period) -> 0 <= fst q < period -> In q l.
Proof.
  intros Hred Hin Hq. destruct l as [| first l]; [destruct Hin |].
  unfold wrap_pts in Hin. cbv zeta in Hin.
  assert (Hfirst : 0 <= fst first < period) by now inversion Hred.
  pose proof (last_reduced (first :: l) first Hred Hfirst) as Hlast.
  destruct Hin as [<- | Hin]; [cbn [fst] in Hq; lra |].
  apply in_app_or in Hin. destruct Hin as [Hin | [<- | []]]; [exact Hin |].
  cbn [fst] in Hq. lra.
Qed.

Lemma wrap_pts_In (l : list (R * npfloat)) (q : R * npfloat) :
  In q l -> In q (wrap_pts l period).
Proof.
  intros Hin. destruct l as [| first l]; [destruct Hin |].
  unfold wrap_pts. cbv zeta. right. apply in_or_app. left; exact Hin.
Qed.

(** On sorted sample points, a query at the abscissa of a sample point
    gets the ordinate found there, provided the sample points that share
    this abscissa share the ordinate. *)
Lemma interp_from_hits (x : R) (y : npfloat) (rest : list (R * npfloat)) :
  forall p,
    StronglySorted le_fst (p :: rest) -> fst p <= x ->
    (exists q, In q (p :: rest) /\ fst q = x) ->
    (forall q, In q (p :: rest) -> fst q = x -> snd q = y) ->
    interp_from x p rest = y.
Proof.
  induction rest as [| a rest IH]; intros p Hsorted Hpx [q [Hq Hqx]] Huniq;
    cbn [interp_from].
  - destruct Hq as [<- | []]. apply Huniq; [left; reflexivity | exact Hqx].
  - apply StronglySorted_inv in Hsorted as [Hrest Hp].
    destruct (Rle_dec (fst a) x) as [Hle | Hgt].
    + apply IH; [exact Hrest | exact Hle | |].
      * destruct Hq as [<- | Hq]; [| exists q; split; assumption].
        exists a. split; [left; reflexivity |].
        inversion Hp as [| a' l' Hpa _]; subst. unfold le_fst in Hpa. lra.
      * intros q' Hq'. apply Huniq. right; exact Hq'.
    + assert (Hqp : q = p).
      { destruct Hq as [Hq | Hq]; [now symmetry |]. exfalso.
        apply StronglySorted_inv in Hrest as [_ Ha].
        destruct Hq as [<- | Hq]; [lra |].
        pose proof (proj1 (Forall_forall _ _) Ha q Hq) as Haq.
        unfold le_fst in Haq. lra. }
      subst q. destruct (Req_dec_T (fst p) x); [| contradiction].
      apply Huniq; [left; reflexivity | exact Hqx].
Qed.

Lemma interp1_hits (pts : list (R * npfloat)) (x : R) (y : npfloat) :
  StronglySorted le_fst pts ->
  (exists q, In q pts /\ fst q = x) ->
  (forall q, In q pts -> fst q = x -> snd q = y) ->
  interp1 pts x = y.
Proof.
  intros Hsorted [q [Hq Hqx]] Huniq.
  destruct pts as [| p rest]; [destruct Hq |]. cbn [interp1].
  assert (Hpx : fst p <= x).
  { destruct Hq as [<- | Hq]; [lra |].
    apply StronglySorted_inv in Hsorted as [_ Hp].
    pose proof (proj1 (Forall_forall _ _) Hp q Hq) as Hpq.
    unfold le_fst in Hpq. lra. }
  destruct (Rlt_dec x (fst p)); [lra |].
  apply interp_from_hits; [exact Hsorted | exact Hpx | | exact Huniq].
  exists q; split; assumption.
Qed.

End Hits.

(** ** The grid times *)

Section GridTimes.

Import Lib.

(** The times of the grid are [t0 + i * (T / n)] for [i = 0 .. n], with
    [n = NT - 1]. *)
Lemma linspace_In (start T : R) (NT : Z) (t : list R) (tk : R) :
  linspace start (start + T) NT = Ok t -> In tk t ->
  exists i, (i <= Nat.pred (Z.to_nat NT))%nat
            /\ tk = start + INR i * (T / INR (Nat.pred (Z.to_nat NT))).
Proof.
  unfold linspace. destruct (NT <? 0)%Z; [discriminate |].
  destruct (Z.to_nat NT) as [| [| n]]; intros H Hin.
  - injection H as <-. destruct Hin.
  - injection H as <-. destruct Hin as [<- | []].
    exists 0%nat. split; [lia |]. cbn [INR]. ring.
  - assert (Hin' : In tk (map (fun i => if Nat.eqb i (S n) then start + T
                                       else start + INR i
                                            * ((start + T - start) / INR (S n)))
                             (seq 0 (S (S n)))))
      by (revert Hin; injection H as <-; exact (fun h => h)).
    apply in_map_iff in Hin'. destruct Hin' as (i & <- & Hi).
    apply in_seq in Hi. exists i. split; [cbn [Nat.pred]; lia |].
    cbn [Nat.pred].
    assert (Hn : 0 < INR (S n)) by (apply lt_0_INR; lia).
    destruct (Nat.eqb_spec i (S n)) as [Heq | _];
      [rewrite Heq |]; field; lra.
Qed.

(** Two grid times with the same remainder modulo the period are the
    same grid point, or the two ends of the grid. *)
Lemma grid_key_inj (T start : R) (n i j : nat) :
  T <> 0 -> (i <= n)%nat -> (j <= n)%nat ->
  np_mod (start + INR i * (T / INR n)) (Rabs T)
  = np_mod (start + INR j * (T / INR n)) (Rabs T) ->
  i = j \/ (i = 0%nat /\ j = n) \/ (i = n /\ j = 0%nat).
Proof.
  intros HT Hi Hj Heq. destruct n as [| n]; [left; lia |].
  unfold np_mod in Heq.
  set (za := Zfloor _) in Heq. set (zb := Zfloor _) in Heq.
  assert (Hn : 0 < INR (S n)) by (apply lt_0_INR; lia).
  assert (H1 : (INR i - INR j) * (T / INR (S n))
               = IZR (za - zb) * Rabs T) by (rewrite minus_IZR; lra).
  assert (H2 : (INR i - INR j) * T = IZR (za - zb) * Rabs T * INR (S n)).
  { rewrite <- H1. field. lra. }
  assert (H3 : exists z : Z, INR i - INR j = IZR z * INR (S n)).
  { destruct (Rcase_abs T) as [Hneg | Hpos].
    - exists (- (za - zb))%Z. rewrite (Rabs_left T Hneg) in H2.
      apply (Rmult_eq_reg_r T); [| exact HT]. rewrite H2, opp_IZR. ring.
    - exists (za - zb)%Z. rewrite (Rabs_right T Hpos) in H2.
      apply (Rmult_eq_reg_r T); [| exact HT]. rewrite H2. ring. }
  destruct H3 as [z Hz].
  rewrite !INR_IZR_INZ, <- minus_IZR, <- mult_IZR in Hz.
  apply eq_IZR in Hz.
  assert (Hcases : (z = 0 \/ z = 1 \/ z = -1)%Z).
  { destruct (Z_lt_le_dec z 2) as [Hlt | Hge];
      [destruct (Z_lt_le_dec (-2) z) as [Hgt | Hle]; [lia |] |].
    - exfalso. assert (z * Z.of_nat (S n) <= -2 * Z.of_nat (S n))%Z
        by (apply Z.mul_le_mono_nonneg_r; lia). lia.
    - exfalso. assert (2 * Z.of_nat (S n) <= z * Z.of_nat (S n))%Z
        by (apply Z.mul_le_mono_nonneg_r; lia). lia. }
  destruct Hcases as [-> | [-> | ->]]; lia.
Qed.

Variables T t0 e : R.
Variable NT : Z.
Hypothesis T_nonzero : T <> 0.
Hypothesis e_le_1 : e <= 1.

(** The mean anomaly of a grid time. *)
Let anomaly (tk : R) : R := 2 * PI / T * (tk - t0).

(** Two grid times with the same remainder have root solves that return
    eccentric anomalies with the same velocity: the same one, or 0 and
    2 pi at the two ends of the grid. *)
Lemma grid_ties (K w VZ : R) (t : list R) (tj tk Ej Ek : R) :
  linspace t0 (t0 + T) NT = Ok t -> In tj t -> In tk t ->
  np_mod tj (Rabs T) = np_mod tk (Rabs T) ->
  solve_kepler e (anomaly tj) = Ok Ej ->
  solve_kepler e (anomaly tk) = Ok Ek ->
  grid_velocity K w e VZ Ej = grid_velocity K w e VZ Ek.
Proof.
  intros Ht Hj Hk Hkey HEj HEk.
  destruct (linspace_In _ _ _ _ _ Ht Hj) as (j & Hjn & ->).
  destruct (linspace_In _ _ _ _ _ Ht Hk) as (k & Hkn & ->).
  set (n := Nat.pred (Z.to_nat NT)) in *.
  assert (H0 : solve_kepler e 0 = Ok 0)
    by (apply solve_kepler_0, off_root_le_1; [apply eps_range | exact e_le_1]).
  assert (H2 : solve_kepler e (2 * PI) = Ok (2 * PI))
    by (apply solve_kepler_2PI, off_root_le_1;
        [apply delta_range | exact e_le_1]).
  assert (Hzero : anomaly (t0 + INR 0 * (T / INR n)) = 0)
    by (unfold anomaly; cbn [INR]; ring).
  assert (Hfull : n <> 0%nat -> anomaly (t0 + INR n * (T / INR n)) = 2 * PI).
  { intros Hn. unfold anomaly.
    assert (0 < INR n) by (apply lt_0_INR; lia). field; split; lra. }
  destruct (grid_key_inj T t0 n j k T_nonzero Hjn Hkn Hkey)
    as [-> | [[-> ->] | [-> ->]]].
  - rewrite HEj in HEk. now injection HEk as ->.
  - destruct n as [| n'].
    + rewrite HEj in HEk. now injection HEk as ->.
    + rewrite Hzero, H0 in HEj. rewrite Hfull, H2 in HEk by lia.
      injection HEj as <-. injection HEk as <-.
      rewrite <- (grid_velocity_turn K w e VZ 0). f_equal. ring.
  - destruct n as [| n'].
    + rewrite HEj in HEk. now injection HEk as ->.
    + rewrite Hzero, H0 in HEk. rewrite Hfull, H2 in HEj by lia.
      injection HEj as <-. injection HEk as <-.
      rewrite <- (grid_velocity_turn K w e VZ 0). f_equal. ring.
Qed.

End GridTimes.

(** ** The synthesizer at its own grid times *)

Section OnTheGrid.

Context {A B C D : Type}.

Lemma in_combine_map (f : A -> C) (g : B -> D) (l : list A) (l' : list B)
  (a : A) (b : B) :
  In (a, b) (combine l l') -> In (f a, g b) (combine (map f l) (map g l')).
Proof.
  revert l'. induction l as [| u l IH]; intros [| v l']; cbn; try tauto.
  intros [H | H]; [left; congruence | right; apply IH; exact H].
Qed.

Lemma in_combine_map_inv (f : A -> C) (g : B -> D) (l : list A)
  (l' : list B) (q : C * D) :
  In q (combine (map f l) (map g l')) ->
  exists a b, In (a, b) (combine l l') /\ q = (f a, g b).
Proof.
  revert l'. induction l as [| u l IH]; intros [| v l']; cbn; try tauto.
  intros [H | H].
  - exists u, v. split; [left; reflexivity | now symmetry].
  - destruct (IH _ H) as (a & b & Hin & Hq).
    exists a, b. split; [right; exact Hin | exact Hq].
Qed.

Lemma map_combine_ext (F : A -> C) (G : B -> C) (l : list A) (l' : list B) :
  length l = length l' ->
  (forall a b, In (a, b) (combine l l') -> F a = G b) ->
  map F l = map G l'.
Proof.
  revert l'. induction l as [| u l IH]; intros [| v l'] Hlen Hall;
    try discriminate; [reflexivity |].
  cbn [map]. f_equal.
  - apply Hall. left; reflexivity.
  - apply IH; [now injection Hlen |].
    intros a b Hin. apply Hall. right; exact Hin.
Qed.

Lemma mapM_map_combine (g : C -> result B) (h : A -> C) (l : list A)
  (bs : list B) (a : A) (b : B) :
  mapM g (map h l) = Ok bs -> In (a, b) (combine l bs) -> g (h a) = Ok b.
Proof.
  revert bs. induction l as [| u l IH]; intros bs H Hin; [destruct Hin |].
  cbn [map mapM bind] in H.
  destruct (g (h u)) as [v | x] eqn:Hu; [| discriminate]. cbn [bind] in H.
  destruct (mapM g (map h l)) as [vs | x] eqn:Hl; [| discriminate].
  cbn [bind] in H. injection H as <-.
  destruct Hin as [Hin | Hin].
  - injection Hin as <- <-. exact Hu.
  - exact (IH vs eq_refl Hin).
Qed.

End OnTheGrid.

(** X15: Asked at its own grid times, [get_RVs] answers with the grid
    velocities (no interpolation error there), for every [e < 1]: the two
    ends of the grid, which are one time modulo the period, carry the same
    velocity. *)
Theorem get_RVs_at_grid_times
  (K T t0 w e a VZ : R) (NT : Z) (t E : list R) :
  T <> 0 -> e < 1 -> (1 <= NT)%Z ->
  Lib.linspace t0 (t0 + T) NT = Ok t ->
  mapM (solve_kepler e) (mean_anomalies T t0 NT) = Ok E ->
  get_RVs K T t0 w e a VZ NT t = Ok (map (grid_velocity K w e VZ) E).
Proof.
  intros HT Hlt HNT Ht HE. assert (He : e <= 1) by lra.
  rewrite (get_RVs_steps K T t0 w e a VZ NT t t Ht HT), HE. cbn [bind].
  assert (Hlen : length t = length E).
  { rewrite (mapM_ok_length _ _ _ HE). unfold mean_anomalies.
    rewrite Ht, length_map. reflexivity. }
  assert (Hp : 0 < Rabs T) by (apply Rabs_pos_lt; exact HT).
  unfold Lib.interp. destruct (Req_dec_T T 0); [contradiction |].
  rewrite length_map, Hlen, Nat.eqb_refl. cbn [negb]. cbv zeta.
  set (key := fun v => Lib.np_mod v (Rabs T)).
  set (gv := grid_velocity K w e VZ).
  set (pts := Lib.sort_pts (combine (map key t) (map gv E))).
  assert (Hred : Forall (fun q => 0 <= fst q < Rabs T) pts).
  { apply Forall_forall. intros q Hq.
    unfold pts in Hq. apply (proj1 (sort_pts_In _ _)) in Hq.
    apply in_combine_map_inv in Hq. destruct Hq as (tk & Ek & _ & ->).
    cbn [fst]. apply np_mod_range; exact Hp. }
  pose proof (wrap_pts_sorted (Rabs T) Hp pts Hred (sort_pts_sorted _))
    as Hsorted.
  assert (Hhit : forall tk Ek, In (tk, Ek) (combine t E) ->
            Lib.interp1 (Lib.wrap_pts pts (Rabs T)) (key tk) = gv Ek).
  { intros tk Ek Hin. apply interp1_hits; [exact Hsorted | |].
    - exists (key tk, gv Ek). split; [| reflexivity].
      apply wrap_pts_In, sort_pts_In, in_combine_map; exact Hin.
    - intros q Hq Hkey.
      apply (wrap_pts_reduced_In (Rabs T) pts q Hred) in Hq;
        [| rewrite Hkey; apply np_mod_range; exact Hp].
      unfold pts in Hq. apply (proj1 (sort_pts_In _ _)) in Hq.
      apply in_combine_map_inv in Hq.
      destruct Hq as (tj & Ej & Hj & ->). cbn [fst snd] in *.
      unfold mean_anomalies in HE. rewrite Ht in HE.
      apply (grid_ties T t0 e NT HT He K w VZ t tj tk Ej Ek Ht).
      + exact (in_combine_l _ _ _ _ Hj).
      + exact (in_combine_l _ _ _ _ Hin).
      + exact Hkey.
      + exact (mapM_map_combine _ _ _ _ _ _ HE Hj).
      + exact (mapM_map_combine _ _ _ _ _ _ HE Hin). }
  destruct (Lib.wrap_pts pts (Rabs T)) as [| p rest] eqn:Hw.
  - exfalso. destruct t as [| t1 t'].
    + destruct (linspace_length _ _ _ _ Ht) as [_ Hl]. cbn [length] in Hl. lia.
    + destruct E as [| E1 E']; [discriminate |].
      assert (Hin : In (key t1, gv E1) (Lib.wrap_pts pts (Rabs T))).
      { apply wrap_pts_In, sort_pts_In. left; reflexivity. }
      rewrite Hw in Hin. destruct Hin.
  - f_equal. rewrite map_map. apply map_combine_ext; [exact Hlen |].
    exact Hhit.
Qed.

Lemma get_RVs_at_grid_times_two_points :
  get_RVs 1 1 0 0 0 1 0 2 [0; 0 + 1]
  = Ok (map (grid_velocity 1 0 0 0) [0; 2 * PI]).
Proof.
  apply (get_RVs_at_grid_times 1 1 0 0 0 1 0 2 [0; 0 + 1] [0; 2 * PI]);
    [lra | lra | lia | apply linspace_two |].
  rewrite mean_anomalies_two by lra.
  apply mapM_fixed. intros Mk _. apply solve_kepler_circular.
Defined.
